(** * go-sftp: the client engine of [client.go]

    A shallow embedding of [client.go] (package [sftp]): the synchronous
    handshake of [NewClient]/[DoHandshake], the request primitive [send],
    the dispatcher goroutine with [handleMessage], and the public
    operations [Version], [OpenDir] and [ReadDir].

    Go values are modelled as the code has them: a [uint32] is an [N], an
    [error] is its message text ([nil] is [None]), a pair of results
    [(T, error)] is a pair, a [*Client] is either [nil] or the address of
    the one client object of a session.  A call either returns, panics or
    blocks for ever ([outcome]).  The two pump goroutines ([readConn],
    [writeConn]) live outside [client.go]; what they put on [cli.incoming]
    and [cli.errch] is the [schedule] of a [World]. *)

From Stdlib Require Import Ascii String NArith List DecimalString DecimalN.
From stdpp Require Import base option gmap strings.
Import ListNotations.

Local Open Scope string_scope.
Local Open Scope N_scope.

(** ** The Go runtime, as far as [client.go] relies on it *)

Module golang.

(** An [error] value built by [errors.New] or [fmt.Errorf]: its text. *)
Definition error : Type := string.

(** Go's [(value, err)] results of the codec: [Err e] when [err != nil]. *)
Inductive result (A : Type) : Type :=
| Ok (a : A)
| Err (e : error).
Arguments Ok {A} a.
Arguments Err {A} e.

(** How a call ends. *)
Inductive outcome (A : Type) : Type :=
| Returns (a : A)
| Panics (reason : string)
| Blocks.
Arguments Returns {A} a.
Arguments Panics {A} reason.
Arguments Blocks {A}.

(** A channel whose receiver keeps consuming: the values handed over so
    far and whether [close] was called.  This is [cli.outgoing] while the
    writer pump takes what is pushed; a push that finds no taker, and one
    that is overtaken by a concurrent [close], are not runs of
    [chan_send]. *)
Record chan (A : Type) : Type := mkChan { closed : bool; sent : list A }.
Arguments mkChan {A} closed sent.
Arguments closed {A} c.
Arguments sent {A} c.

Definition make {A : Type} : chan A := mkChan false [].

(** [c <- x] *)
Definition chan_send {A : Type} (c : chan A) (x : A) : outcome (chan A) :=
  if closed c then Panics "send on closed channel"
  else Returns (mkChan false (sent c ++ [x])).

(** [close(c)] *)
Definition chan_close {A : Type} (c : chan A) : outcome (chan A) :=
  if closed c then Panics "close of closed channel"
  else Returns (mkChan true (sent c)).

(** The verb [%d] of package [fmt] on an unsigned integer. *)
Definition fmt_d (n : N) : string := NilEmpty.string_of_uint (N.to_uint n).

(** No character of [s] is a space. *)
Fixpoint spaceless (s : string) : Prop :=
  match s with
  | EmptyString => True
  | String c s' => c <> " "%char /\ spaceless s'
  end.

Definition nil_dereference : string :=
  "invalid memory address or nil pointer dereference".

End golang.
Export golang.

(** ** Package [sshfxp]: messages and the codec boundary *)

Module sshfxp.

(** Modelled from the spec: package [sshfxp] is imported by [client.go]
    and is not among the sources.  The message variants are the ones
    [client.go] builds or switches on ([Init], [Version], [OpenDir],
    [ReadDir], [Handle], [Status]) with the fields it reads, and [Name],
    the response that carries a directory's entry list.  A variant with
    an [ID] field implements the interface [Header]. *)
Inductive Message : Type :=
| Init (Version : N)
| Version (Version : N)
| OpenDir (ID : N) (Path : string)
| ReadDir (ID : N) (Handle : string)
| Handle (ID : N) (Handle : string)
| Status (ID : N) (Error : N) (Message : string)
| Name (ID : N) (Entries : list string).

(** The type assertion [x.(sshfxp.Header)] followed by [GetID]. *)
Definition GetID (m : Message) : option N :=
  match m with
  | Init _ | Version _ => None
  | OpenDir id _ | ReadDir id _ | Handle id _ | Status id _ _ | Name id _ => Some id
  end.

(** [header.SetID(id)]; the variants without an id are left alone. *)
Definition SetID (id : N) (m : Message) : Message :=
  match m with
  | Init v => Init v
  | Version v => Version v
  | OpenDir _ p => OpenDir id p
  | ReadDir _ h => ReadDir id h
  | Handle _ h => Handle id h
  | Status _ e t => Status id e t
  | Name _ l => Name id l
  end.

(** The codec, a parameter of the client: [Packet], its methods [Encode]
    and [Decode], the two header fields [handleMessage] logs, and the
    rendering of a message under the verb [%#v]. *)
Class Codec : Type := {
  Packet : Type;
  Length : Packet -> N;
  Type_ : Packet -> N;
  Encode : Message -> result Packet;
  Decode : Packet -> result Message;
  GoString : Message -> string;
}.

End sshfxp.

(** ** The router *)

Module Router.

Import sshfxp.

(** Modelled from the spec: [router.go] is not among the sources.  The
    table of outstanding ids, a monotonically increasing id generator,
    and the single-delivery response slots, each named by the id it was
    reserved for. *)
Record t : Type := mk {
  next_id : N;
  pending : gset N;
  slots : gmap N Message;
}.

(** Modelled from the spec: the error of [Resolve] for an id without an
    outstanding request (the spec's RoutingError). *)
Definition RoutingError : error := "no outstanding request for response".

(** Modelled from the spec: [NewRouter]; nothing outstanding, ids from 0. *)
Definition NewRouter : t := mk 0 ∅ ∅.

(** Modelled from the spec: [Reserve]; a fresh id and its empty slot. *)
Definition Get (r : t) : N * N * t :=
  let id := next_id r in
  (id, id, mk (N.succ id) ({[id]} ∪ pending r) (delete id (slots r))).

(** Modelled from the spec: [Resolve]; deliver to the slot of the
    message's id and drop the entry, or report a RoutingError and change
    nothing. *)
Definition Resolve (m : Message) (r : t) : option error * t :=
  match GetID m with
  | Some id =>
      if decide (id ∈ pending r)
      then (None, mk (next_id r) (pending r ∖ {[id]}) (<[id := m]> (slots r)))
      else (Some RoutingError, r)
  | None => (Some RoutingError, r)
  end.

(** Modelled from the spec: the receiving end of a response slot, which
    gives the delivered message, if any, once. *)
Definition take (ch : N) (r : t) : option (Message * t) :=
  match slots r !! ch with
  | Some m => Some (m, mk (next_id r) (pending r) (delete ch (slots r)))
  | None => None
  end.

End Router.

(** ** The client *)

Section Client.

Import sshfxp.
Context `{codec : Codec}.

(** [type Client struct]; the channels [incoming] and [errch] are fed by
    the pumps and are the [schedule] of the [World]; [reader] and
    [writer] keep whether [Close] was called on them.  The wait group
    [wg] holds no data the client reads; its join is [wg_Wait]. *)
Record Client : Type := mkClient {
  reader : bool;
  writer : bool;
  outgoing : chan Packet;
  ioErr : option error;
  router : Router.t;
  version : N;
}.

Definition set_reader (b : bool) (c : Client) : Client :=
  mkClient b (writer c) (outgoing c) (ioErr c) (router c) (version c).
Definition set_writer (b : bool) (c : Client) : Client :=
  mkClient (reader c) b (outgoing c) (ioErr c) (router c) (version c).
Definition set_outgoing (o : chan Packet) (c : Client) : Client :=
  mkClient (reader c) (writer c) o (ioErr c) (router c) (version c).
Definition set_ioErr (e : option error) (c : Client) : Client :=
  mkClient (reader c) (writer c) (outgoing c) e (router c) (version c).
Definition set_router (r : Router.t) (c : Client) : Client :=
  mkClient (reader c) (writer c) (outgoing c) (ioErr c) r (version c).
Definition set_version (v : N) (c : Client) : Client :=
  mkClient (reader c) (writer c) (outgoing c) (ioErr c) (router c) v.

(** A [*Client]: [nil], or the address of the session's client. *)
Inductive ptr : Type := nil | addr.

(** What the select of the dispatcher, or a receive on [cli.incoming],
    finds ready next: a frame published by the reader pump, or the
    outcome a pump reported on [cli.errch]. *)
Inductive event : Type :=
| Incoming (pkt : Packet)
| Errch (err : option error).

(** An argument of a logging call. *)
Inductive arg : Type :=
| AErr (e : error)
| AUint (n : N)
| APacket (p : Packet)
| AMsg (m : Message).

Inductive LogEntry : Type :=
| Infof (format : string) (args : list arg)
| Errorf (format : string) (args : list arg).

(** The state of a session: the client object, the log of [logrus], what
    the pumps will still deliver, whether the dispatcher goroutine is
    running, and the history of the assignments to [cli.ioErr]. *)
Record World : Type := mkWorld {
  heap : Client;
  logs : list LogEntry;
  schedule : list event;
  dispatching : bool;
  ioErr_stores : list error;
}.

Definition set_heap (c : Client) (w : World) : World :=
  mkWorld c (logs w) (schedule w) (dispatching w) (ioErr_stores w).
Definition set_schedule (s : list event) (w : World) : World :=
  mkWorld (heap w) (logs w) s (dispatching w) (ioErr_stores w).
Definition set_dispatching (b : bool) (w : World) : World :=
  mkWorld (heap w) (logs w) (schedule w) b (ioErr_stores w).

(** *** The monad of the client's code: state and outcome *)

Definition M (A : Type) : Type := World -> outcome (A * World).

#[export] Instance M_ret : MRet M := fun A a w => Returns (a, w).
#[export] Instance M_bind : MBind M := fun A B f m w =>
  match m w with
  | Returns (a, w') => f a w'
  | Panics s => Panics s
  | Blocks => Blocks
  end.

Definition panic {A : Type} (reason : string) : M A := fun _ => Panics reason.
Definition block {A : Type} : M A := fun _ => Blocks.

(** Reading a field of [cli]. *)
Definition deref (cli : ptr) : M Client := fun w =>
  match cli with
  | nil => Panics nil_dereference
  | addr => Returns (heap w, w)
  end.

(** Writing a field of [cli]. *)
Definition store (cli : ptr) (f : Client -> Client) : M unit := fun w =>
  match cli with
  | nil => Panics nil_dereference
  | addr => Returns (tt, set_heap (f (heap w)) w)
  end.

(** [cli.ioErr = err] *)
Definition store_ioErr (cli : ptr) (err : error) : M unit := fun w =>
  match cli with
  | nil => Panics nil_dereference
  | addr =>
      Returns (tt, mkWorld (set_ioErr (Some err) (heap w)) (logs w)
                     (schedule w) (dispatching w) (ioErr_stores w ++ [err]))
  end.

Definition logrus (e : LogEntry) : M unit := fun w =>
  Returns (tt, mkWorld (heap w) (logs w ++ [e]) (schedule w) (dispatching w)
                 (ioErr_stores w)).

(** The dispatcher goroutine is started ([go func(cli *Client)]) or ends. *)
Definition goroutine (running : bool) : M unit := fun w =>
  Returns (tt, set_dispatching running w).

(** Lifting a channel operation on [cli.outgoing]. *)
Definition on_outgoing (cli : ptr)
    (op : chan Packet -> outcome (chan Packet)) : M unit :=
  c ← deref cli;
  match op (outgoing c) with
  | Returns o => store cli (set_outgoing o)
  | Panics s => panic s
  | Blocks => block
  end.

(** [<-cli.incoming]: the next frame of the reader pump; outcomes
    already reported on [cli.errch] stay buffered there. *)
Fixpoint next_incoming (s : list event) : option (Packet * list event) :=
  match s with
  | [] => None
  | Incoming pkt :: s' => Some (pkt, s')
  | Errch e :: s' =>
      match next_incoming s' with
      | Some (pkt, rest) => Some (pkt, Errch e :: rest)
      | None => None
      end
  end.

Definition recv_incoming (cli : ptr) : M Packet := fun w =>
  match cli with
  | nil => Panics nil_dereference
  | addr =>
      match next_incoming (schedule w) with
      | Some (pkt, rest) => Returns (pkt, set_schedule rest w)
      | None => Blocks
      end
  end.

(** *** [client.go] *)

(** [func (cli *Client) send(x sshfxp.Message)]: reserve an id when the
    message is a [Header], encode, push on [cli.outgoing]. *)
Definition send (cli : ptr) (x : Message) : M (option N * option error) :=
  xr ← match GetID x with
       | Some _ =>
           c ← deref cli;
           let '(id, ch, r) := Router.Get (router c) in
           store cli (set_router r);;
           mret (SetID id x, Some ch)
       | None => mret (x, None)
       end;
  match Encode xr.1 with
  | Err err => mret (None, Some err)
  | Ok pkt =>
      on_outgoing cli (fun o => chan_send o pkt);;
      mret (xr.2, None)
  end.

(** [func (cli *Client) handleMessage(msg sshfxp.Packet) error] *)
Definition handleMessage (cli : ptr) (msg : Packet) : M (option error) :=
  logrus (Infof "Got message: Len=%d Type=%d: %#v"
            [AUint (Length msg); AUint (Type_ msg); APacket msg]);;
  match Decode msg with
  | Err err => mret (Some ("failed to decode message: " +:+ err))
  | Ok payload =>
      c ← deref cli;
      let '(err, r) := Router.Resolve payload (router c) in
      store cli (set_router r);;
      match err with
      | Some e => mret (Some e)
      | None => mret None
      end
  end.

(** [func (cli *Client) DoHandshake() error] *)
Definition DoHandshake (cli : ptr) : M (option error) :=
  let init := Init 3 in
  rs ← send cli init;
  match rs.2 with
  | Some err => mret (Some err)
  | None =>
      pkt ← recv_incoming cli;
      match Decode pkt with
      | Err err => mret (Some err)
      | Ok (Version v) =>
          if decide (v ≠ 3) then mret (Some "unsupported version")
          else store cli (set_version v);; mret None
      | Ok _ => mret (Some "unexpected message received")
      end
  end.

(** [func (cli *Client) Version() uint32] *)
Definition Version (cli : ptr) : M N :=
  c ← deref cli; mret (version c).

(** One round of the select of the dispatcher goroutine on the event that
    is ready; [true] stands for [break L]. *)
Definition dispatcher_select (cli : ptr) (ev : event) : M bool :=
  match ev with
  | Incoming msg =>
      err ← handleMessage cli msg;
      match err with
      | Some e => logrus (Errorf "failed to handle message: %s" [AErr e])
      | None => mret tt
      end;;
      mret false
  | Errch err =>
      match err with
      | Some e =>
          store_ioErr cli e;;
          logrus (Errorf "received error: %s" [AErr e])
      | None => mret tt
      end;;
      logrus (Infof "received nil on errch" []);;
      mret true
  end.

(** One iteration of the loop [L], and what follows the loop when it is
    left: [close(cli.outgoing)] and the end of the goroutine. *)
Definition dispatcher_iter (cli : ptr) (ev : event) : M unit :=
  brk ← dispatcher_select cli ev;
  if (brk : bool) then
    on_outgoing cli chan_close;;
    goroutine false
  else mret tt.

(** The dispatcher goroutine run over the events [evs]. *)
Fixpoint dispatcher (cli : ptr) (evs : list event) (w : World) : outcome (unit * World) :=
  if dispatching w then
    match evs with
    | [] => Returns (tt, set_schedule [] w)
    | ev :: evs' =>
        match dispatcher_iter cli ev (set_schedule evs' w) with
        | Returns (_, w') => dispatcher cli evs' w'
        | Panics s => Panics s
        | Blocks => Blocks
        end
    end
  else Returns (tt, set_schedule evs w).

(** [<-ch] on a response slot: while the slot is empty the caller is
    suspended and the dispatcher goroutine runs on what the pumps deliver;
    a receive on the [nil] channel, or on a slot nobody will fill, blocks
    for ever.  The runs in which the dispatcher goes ahead of a call, for
    one that closes [cli.outgoing] before the push of [send], are those
    of [session_step] with a [step_dispatcher] before the call. *)
Fixpoint recv_from (ch : N) (evs : list event) (w : World) : outcome (Message * World) :=
  match Router.take ch (router (heap w)) with
  | Some (m, r) => Returns (m, set_schedule evs (set_heap (set_router r (heap w)) w))
  | None =>
      if dispatching w then
        match evs with
        | [] => Blocks
        | ev :: evs' =>
            match dispatcher_iter addr ev (set_schedule evs' w) with
            | Returns (_, w') => recv_from ch evs' w'
            | Panics s => Panics s
            | Blocks => Blocks
            end
        end
      else Blocks
  end.

Definition recv (ch : option N) : M Message := fun w =>
  match ch with
  | Some c => recv_from c (schedule w) w
  | None => Blocks
  end.

(** The type switch of [OpenDir] on the response. *)
Definition OpenDir_switch (res : Message) : string * option error :=
  match res with
  | Handle _ h => (h, None)
  | Status _ e t => ("", Some (fmt_d e +:+ " - " +:+ t))
  | _ => ("", Some ("unexpected response: " +:+ GoString res))
  end.

(** [func (cli *Client) OpenDir(path string) (string, error)] *)
Definition OpenDir (cli : ptr) (path : string) : M (string * option error) :=
  let open := sshfxp.OpenDir 0 path in
  rs ← send cli open;
  match rs.2 with
  | Some err => mret ("", Some err)
  | None =>
      res ← recv rs.1;
      mret (OpenDir_switch res)
  end.

(** [func (cli *Client) ReadDir(handle string) ([]*os.FileInfo, error)];
    the entries are the names of a [Name] response, [nil] is [[]]. *)
Definition ReadDir (cli : ptr) (handle : string) : M (list string * option error) :=
  let read := sshfxp.ReadDir 0 handle in
  rs ← send cli read;
  match rs.2 with
  | Some err => mret ([], Some err)
  | None =>
      res ← recv rs.1;
      logrus (Infof "Got: %#v" [AMsg res]);;
      mret ([], None)
  end.

(** The client [NewClient] allocates. *)
Definition new_client : Client :=
  mkClient false false make None Router.NewRouter 0.

(** The world in which [NewClient] runs the handshake: the new client,
    nothing logged, the pumps started on [rw], no dispatcher yet. *)
Definition new_world (rw : list event) : World :=
  mkWorld new_client [] rw false [].

(** Modelled from the spec: [cli.wg.Wait()] on the failure path of
    [NewClient].  [readConn] and [writeConn] are not among the sources;
    by the spec (4.2) the writer pump ends when the outbound queue is
    closed and the reader pump when the stream is closed.  Each of the
    two goroutines of lines 41-53 then logs its "exited" line and calls
    [cli.wg.Done()], and the join returns.  The order of the two lines is
    the one of the two closings; a reader pump that never ends, parked on
    [cli.incoming] with a frame nobody receives, is a run in which the
    join, and with it [NewClient], does not return, and is not a run of
    this definition. *)
Definition wg_Wait (cli : ptr) : M unit :=
  deref cli;;
  logrus (Infof "SFTP client writer exited" []);;
  logrus (Infof "SFTP client reader exited" []).

(** [func NewClient(r io.ReadCloser, w io.WriteCloser) *Client]; [rw] is
    what the two pumps started on [r] and [w] deliver. *)
Definition NewClient (rw : list event) : outcome (ptr * World) :=
  let cli := addr in
  (err ← DoHandshake cli;
   match err with
   | Some e =>
       logrus (Errorf "SFTP handshake failed: %s" [AErr e]);;
       on_outgoing cli chan_close;;
       store cli (set_reader true);;
       store cli (set_writer true);;
       wg_Wait cli;;
       store_ioErr cli e;;
       mret nil
   | None =>
       c ← deref cli;
       logrus (Infof "SFTP-handeshake complete. Using SFTP version %d"
                 [AUint (version c)]);;
       goroutine true;;
       mret cli
   end) (new_world rw).

(** *** Auxiliary definitions for the statements below *)

(** [keeps R m]: whenever [m] returns, the worlds before and after are
    related by [R]. *)
Definition keeps (R : World -> World -> Prop) {A : Type} (m : M A) : Prop :=
  forall w a w', m w = Returns (a, w') -> R w w'.

(** [quiet R]: [R] does not look at the router, the outbound queue, the
    log or the schedule. *)
Definition quiet (R : World -> World -> Prop) : Prop :=
  (forall w r, R w (set_heap (set_router r (heap w)) w)) /\
  (forall w o, R w (set_heap (set_outgoing o (heap w)) w)) /\
  (forall w l, R w (mkWorld (heap w) l (schedule w) (dispatching w) (ioErr_stores w))) /\
  (forall w s, R w (set_schedule s w)).

(** [R] does not look at the negotiated version. *)
Definition ignores_version (R : World -> World -> Prop) : Prop :=
  forall w v, R w (set_heap (set_version v (heap w)) w).

(** [R] does not look at the session error nor at the dispatcher. *)
Definition ignores_control (R : World -> World -> Prop) : Prop :=
  (forall w e, R w (mkWorld (set_ioErr (Some e) (heap w)) (logs w) (schedule w)
                      (dispatching w) (ioErr_stores w ++ [e]))) /\
  (forall w b, R w (set_dispatching b w)).

(** The session error, its history and the dispatcher are as they were. *)
Definition same_control (w w' : World) : Prop :=
  ioErr (heap w') = ioErr (heap w) /\
  ioErr_stores w' = ioErr_stores w /\
  dispatching w' = dispatching w.

Definition same_version (w w' : World) : Prop :=
  version (heap w') = version (heap w).

(** Between [w] and [w'] the session error was left alone, or the running
    dispatcher stopped and recorded at most one error on its way out. *)
Definition advance (w w' : World) : Prop :=
  same_control w w' \/
  (dispatching w = true /\ dispatching w' = false /\
   ((ioErr (heap w') = ioErr (heap w) /\ ioErr_stores w' = ioErr_stores w) \/
    exists e, ioErr (heap w') = Some e /\ ioErr_stores w' = (ioErr_stores w ++ [e])%list)).

(** The session error was assigned at most once, not at all while the
    dispatcher runs, and [cli.ioErr] holds what was assigned. *)
Definition recorded_once (w : World) : Prop :=
  (length (ioErr_stores w) <= 1)%nat /\
  (dispatching w = true -> ioErr_stores w = []) /\
  ioErr (heap w) = head (ioErr_stores w).

(** What happens next in a session whose caller holds [cli]: the
    dispatcher goroutine takes the event that is ready, or a public
    operation called on [cli] returns. *)
Inductive session_step (cli : ptr) (w w' : World) : Prop :=
| step_dispatcher ev evs :
    schedule w = ev :: evs -> dispatching w = true ->
    dispatcher_iter addr ev (set_schedule evs w) = Returns (tt, w') ->
    session_step cli w w'
| step_OpenDir path r :
    OpenDir cli path w = Returns (r, w') -> session_step cli w w'
| step_ReadDir handle r :
    ReadDir cli handle w = Returns (r, w') -> session_step cli w w'
| step_Version v :
    Version cli w = Returns (v, w') -> session_step cli w w'
| step_DoHandshake r :
    DoHandshake cli w = Returns (r, w') -> session_step cli w w'.

(** The worlds a session goes through, from [NewClient] on. *)
Inductive session (cli : ptr) : World -> Prop :=
| session_new rw w : NewClient rw = Returns (cli, w) -> session cli w
| session_next w w' : session cli w -> session_step cli w w' -> session cli w'.

Definition is_incoming (ev : event) : Prop :=
  match ev with
  | Incoming _ => True
  | Errch _ => False
  end.

Definition reserve (x : Message) (w : World) : Message * option N * World :=
  match GetID x with
  | Some _ =>
      let id := Router.next_id (router (heap w)) in
      (SetID id x, Some id,
       set_heap (set_router (Router.Get (router (heap w))).2 (heap w)) w)
  | None => (x, None, w)
  end.

(** The verdict of [DoHandshake] on the decoded first frame. *)
Definition handshake_verdict (first : result Message) : option error :=
  match first with
  | Err err => Some err
  | Ok (sshfxp.Version v) => if decide (v ≠ 3) then Some "unsupported version" else None
  | Ok _ => Some "unexpected message received"
  end.

Definition pushed (pkt : Packet) (w : World) : World :=
  set_heap (set_outgoing (mkChan false (sent (outgoing (heap w)) ++ [pkt])) (heap w)) w.

(** The world [NewClient] leaves behind when the handshake succeeded on
    the frame [pkt0] sent and with [rest] still to be delivered, and the
    one it leaves behind when the handshake failed with [e]. *)
Definition ready_world (pkt0 : Packet) (rest : list event) : World :=
  mkWorld (mkClient false false (mkChan false [pkt0]) None Router.NewRouter 3)
    [Infof "SFTP-handeshake complete. Using SFTP version %d" [AUint 3]]
    rest true [].

Definition failed_world (out : list Packet) (e : error) (rest : list event) : World :=
  mkWorld (mkClient true true (mkChan true out) (Some e) Router.NewRouter 0)
    [Errorf "SFTP handshake failed: %s" [AErr e];
     Infof "SFTP client writer exited" [];
     Infof "SFTP client reader exited" []]
    rest false [e].

(** The outbound queue is closed exactly when the dispatcher has ended,
    and [Close] was called on neither half of the stream. *)
Definition wired (w : World) : Prop :=
  closed (outgoing (heap w)) = negb (dispatching w) /\
  reader (heap w) = false /\
  writer (heap w) = false.

(** The router once the dispatcher has handled the frame [pkt]. *)
Definition routed (pkt : Packet) (r : Router.t) : Router.t :=
  match Decode pkt with
  | Ok m => (Router.Resolve m r).2
  | Err _ => r
  end.

(** What the dispatcher logs when it handles the frame [pkt]. *)
Definition handling_log (pkt : Packet) (r : Router.t) : list LogEntry :=
  Infof "Got message: Len=%d Type=%d: %#v"
    [AUint (Length pkt); AUint (Type_ pkt); APacket pkt] ::
  match Decode pkt with
  | Ok m =>
      match (Router.Resolve m r).1 with
      | Some e => [Errorf "failed to handle message: %s" [AErr e]]
      | None => []
      end
  | Err e =>
      [Errorf "failed to handle message: %s" [AErr ("failed to decode message: " +:+ e)]]
  end.

(** An inbound frame that does not answer the request [id]: it cannot be
    decoded, or its message carries no id or another one. *)
Definition not_for (id : N) (ev : event) : Prop :=
  match ev with
  | Incoming pkt =>
      match Decode pkt with
      | Ok m => GetID m <> Some id
      | Err _ => True
      end
  | Errch _ => False
  end.

End Client.

(** ** A codec to run the client on *)

Module wire.

Import sshfxp.

(** A frame on the wire: the encoding of a message, or bytes no message
    encodes to. *)
Inductive frame : Type :=
| Frame (m : Message)
| Garbage.

Definition type_of (m : Message) : N :=
  match m with
  | Init _ => 1
  | Version _ => 2
  | OpenDir _ _ => 11
  | ReadDir _ _ => 12
  | Status _ _ _ => 101
  | Handle _ _ => 102
  | Name _ _ => 104
  end.

Definition render (m : Message) : string :=
  match m with
  | Init _ => "&sshfxp.Init{}"
  | Version _ => "&sshfxp.Version{}"
  | OpenDir _ _ => "&sshfxp.OpenDir{}"
  | ReadDir _ _ => "&sshfxp.ReadDir{}"
  | Status _ _ _ => "&sshfxp.Status{}"
  | Handle _ _ => "&sshfxp.Handle{}"
  | Name _ _ => "&sshfxp.Name{}"
  end.

#[export] Instance codec : Codec := {|
  Packet := frame;
  Length := fun _ => 0;
  Type_ := fun p => match p with Frame m => type_of m | Garbage => 0 end;
  Encode := fun m => Ok (Frame m);
  Decode := fun p => match p with Frame m => Ok m | Garbage => Err "malformed packet" end;
  GoString := render;
|}.

(** A codec that refuses to encode a request for the empty path. *)
Definition picky : Codec := {|
  Packet := frame;
  Length := fun _ => 0;
  Type_ := fun p => match p with Frame m => type_of m | Garbage => 0 end;
  Encode := fun m =>
    match m with
    | OpenDir _ "" => Err "empty path"
    | _ => Ok (Frame m)
    end;
  Decode := fun p => match p with Frame m => Ok m | Garbage => Err "malformed packet" end;
  GoString := render;
|}.

End wire.

(** ** Sessions to run the client on *)

Module scenario.

Import wire.

Definition init3 : frame := Frame (sshfxp.Init 3).
Definition version3 : event := Incoming (Frame (sshfxp.Version 3)).
Definition version4 : event := Incoming (Frame (sshfxp.Version 4)).
Definition stray_handle : event := Incoming (Frame (sshfxp.Handle 0 "abc")).
Definition stray7 : event := Incoming (Frame (sshfxp.Handle 7 "abc")).

(** The server answers the handshake and nothing else. *)
Definition ready : World := ready_world init3 [].

(** The server answers the handshake, then a pump reports [EOF]. *)
Definition failing : World := ready_world init3 [Errch (Some "EOF")].

(** The session after the dispatcher has received [EOF] and left. *)
Definition closed_session : World :=
  mkWorld (mkClient false false (mkChan true [init3]) (Some "EOF") Router.NewRouter 3)
    [Infof "SFTP-handeshake complete. Using SFTP version %d" [AUint 3];
     Errorf "received error: %s" [AErr "EOF"];
     Infof "received nil on errch" []]
    [] false ["EOF"].

(** The server answers the handshake, then the first request with [res]. *)
Definition answering (res : sshfxp.Message) : World :=
  ready_world init3 [Incoming (Frame res)].

(** The world once [OpenDir("/tmp")] has sent its request from [w], and
    the one once its response has been received. *)
Definition requested (w : World) : World :=
  match send addr (sshfxp.OpenDir 0 "/tmp") w with
  | Returns (_, w1) => w1
  | _ => w
  end.

Definition answered (w : World) : World :=
  match recv (Some 0) (requested w) with
  | Returns (_, w2) => w2
  | _ => w
  end.

Definition garbage : event := Incoming Garbage.
Definition eof : event := Errch (Some "EOF").

(** The world a call returned in. *)
Definition world_of {A : Type} (o : outcome (A * World)) : World :=
  match o with
  | Returns (_, w) => w
  | _ => ready
  end.

(** The server answers the handshake; then come a frame that cannot be
    decoded, a [Handle] for the id 7, and the [Handle] for the id 0. *)
Definition noisy : World :=
  ready_world init3 [garbage; stray7; stray_handle].

(** A ready session over the codec [picky]. *)
Definition picky_ready : @World picky :=
  @ready_world picky (Frame (sshfxp.Init 3)) [].

Definition picky_failed : @World picky :=
  match @send picky addr (sshfxp.OpenDir 0 "") picky_ready with
  | Returns (_, w) => w
  | _ => picky_ready
  end.

End scenario.

(** ** Formatting *)

Section Formatting.

Lemma string_of_uint_spaceless (d : Decimal.uint) :
  spaceless (NilEmpty.string_of_uint d).
Proof. induction d; simpl; try split; trivial; discriminate. Qed.

Lemma fmt_d_spaceless (n : N) : spaceless (fmt_d n).
Proof. apply string_of_uint_spaceless. Qed.

Lemma fmt_d_inj (n n' : N) : fmt_d n = fmt_d n' -> n = n'.
Proof.
  unfold fmt_d. intros E. apply DecimalN.Unsigned.to_uint_inj.
  apply (f_equal NilEmpty.uint_of_string) in E.
  rewrite !NilEmpty.usu in E. congruence.
Qed.

Lemma split_at_space (a1 a2 r1 r2 : string) :
  spaceless a1 -> spaceless a2 ->
  a1 +:+ String " " r1 = a2 +:+ String " " r2 -> a1 = a2 /\ r1 = r2.
Proof.
  revert a2. induction a1 as [|c a1 IH]; intros [|c2 a2]; simpl.
  - intros _ _ E. injection E as <-. auto.
  - intros _ [Hc _] E. injection E as E _. congruence.
  - intros [Hc _] _ E. injection E as E _. congruence.
  - intros [_ H1] [_ H2] E. injection E as <- E.
    destruct (IH a2 H1 H2 E) as [<- <-]. auto.
Qed.

(** The text [fmt.Errorf("%d - %s", code, text)] determines both fields. *)
Lemma status_error_inj (code code' : N) (text text' : string) :
  fmt_d code' +:+ " - " +:+ text' = fmt_d code +:+ " - " +:+ text ->
  code' = code /\ text' = text.
Proof.
  intros E.
  apply split_at_space in E as [E1 E2]; auto using fmt_d_spaceless.
  split; [now apply fmt_d_inj | congruence].
Qed.

End Formatting.

(** ** Reasoning about the monad *)

Section Properties.

Import sshfxp(Message, Init, Handle, Status, Name, GetID, SetID, Codec, Packet, Encode, Decode, GoString, Length, Type_).
Context `{codec : Codec}.

Ltac monad :=
  cbv beta iota delta
    [mbind M_bind mret M_ret deref store store_ioErr logrus goroutine panic
     block on_outgoing chan_send chan_close].

Tactic Notation "monad" "in" hyp(H) :=
  cbv beta iota delta
    [mbind M_bind mret M_ret deref store store_ioErr logrus goroutine panic
     block on_outgoing chan_send chan_close] in H.

Lemma bind_returns {A B : Type} (m : M A) (f : A -> M B) (w : World) a w1 :
  m w = Returns (a, w1) -> (m ≫= f) w = f a w1.
Proof. intros E. unfold mbind, M_bind. now rewrite E. Qed.

Lemma bind_panics {A B : Type} (m : M A) (f : A -> M B) (w : World) s :
  m w = Panics s -> (m ≫= f) w = Panics s.
Proof. intros E. unfold mbind, M_bind. now rewrite E. Qed.

Lemma bind_inv {A B : Type} (m : M A) (f : A -> M B) (w : World) b w2 :
  (m ≫= f) w = Returns (b, w2) ->
  exists a w1, m w = Returns (a, w1) /\ f a w1 = Returns (b, w2).
Proof.
  unfold mbind, M_bind. destruct (m w) as [[a w1]| |]; try discriminate.
  intros E. now exists a, w1.
Qed.

Section Keeps.

Variable R : World -> World -> Prop.
Hypothesis R_refl : forall w, R w w.
Hypothesis R_trans : forall w1 w2 w3, R w1 w2 -> R w2 w3 -> R w1 w3.

Lemma keeps_ret {A : Type} (a : A) : keeps R (mret a).
Proof. intros w b w' E. injection E as _ <-. apply R_refl. Qed.

Lemma keeps_bind {A B : Type} (m : M A) (f : A -> M B) :
  keeps R m -> (forall a, keeps R (f a)) -> keeps R (m ≫= f).
Proof.
  intros Hm Hf w b w2 E. apply bind_inv in E as (a & w1 & E1 & E2).
  eapply R_trans; [eapply Hm | eapply Hf]; eassumption.
Qed.

Lemma keeps_deref cli : keeps R (deref cli).
Proof. intros w c w' E. destruct cli; [discriminate|]. injection E as _ <-. apply R_refl. Qed.

Lemma keeps_panic {A : Type} s : keeps R (panic (A := A) s).
Proof. intros w a w' E. discriminate. Qed.

Lemma keeps_block {A : Type} : keeps R (block (A := A)).
Proof. intros w a w' E. discriminate. Qed.

Lemma keeps_store cli f :
  (forall w, R w (set_heap (f (heap w)) w)) -> keeps R (store cli f).
Proof. intros H w [ ] w' E. destruct cli; [discriminate|]. injection E as <-. apply H. Qed.

Lemma keeps_logrus e :
  (forall w l, R w (mkWorld (heap w) l (schedule w) (dispatching w) (ioErr_stores w))) ->
  keeps R (logrus e).
Proof. intros H w [ ] w' E. injection E as <-. apply H. Qed.

Lemma keeps_on_outgoing cli op :
  (forall w o, R w (set_heap (set_outgoing o (heap w)) w)) ->
  keeps R (on_outgoing cli op).
Proof.
  intros H w [ ] w' E. destruct cli; [discriminate|].
  unfold on_outgoing in E. monad in E.
  destruct (op (outgoing (heap w))); try discriminate.
  injection E as <-. apply H.
Qed.

Lemma keeps_recv_incoming cli :
  (forall w s, R w (set_schedule s w)) -> keeps R (recv_incoming cli).
Proof.
  intros H w pkt w' E. destruct cli; [discriminate|].
  unfold recv_incoming in E.
  destruct (next_incoming (schedule w)) as [[p rest]|]; [|discriminate].
  injection E as _ <-. apply H.
Qed.

Ltac keeps_step :=
  first
    [ apply keeps_ret
    | apply keeps_deref
    | apply keeps_panic
    | apply keeps_block
    | apply keeps_bind; [ | intros ?]
    | match goal with
      | |- keeps _ (match ?x with _ => _ end) => destruct x
      | |- keeps _ (let '(_, _) := ?x in _) => destruct x
      | |- keeps _ (if ?x then _ else _) => destruct x
      end ].

Lemma keeps_send cli x : quiet R -> keeps R (send cli x).
Proof.
  intros (Hr & Ho & Hl & Hs). unfold send.
  repeat first
    [ apply keeps_on_outgoing; exact Ho
    | apply keeps_store; intros w; apply Hr
    | keeps_step ].
Qed.

Lemma keeps_handleMessage cli msg : quiet R -> keeps R (handleMessage cli msg).
Proof.
  intros (Hr & Ho & Hl & Hs). unfold handleMessage.
  repeat first
    [ apply keeps_logrus; exact Hl
    | apply keeps_store; intros w; apply Hr
    | keeps_step ].
Qed.

Lemma keeps_Version cli : keeps R (Version cli).
Proof. unfold Version. repeat keeps_step. Qed.

Lemma keeps_DoHandshake cli :
  quiet R -> ignores_version R -> keeps R (DoHandshake cli).
Proof.
  intros HQ Hv. pose proof HQ as (Hr & Ho & Hl & Hs). unfold DoHandshake.
  repeat first
    [ apply keeps_send; exact HQ
    | apply keeps_recv_incoming; exact Hs
    | apply keeps_store; intros w; apply Hv
    | keeps_step ].
Qed.

Lemma keeps_store_ioErr cli e : ignores_control R -> keeps R (store_ioErr cli e).
Proof.
  intros [H _] w [ ] w' E. destruct cli; [discriminate|].
  injection E as <-. apply H.
Qed.

Lemma keeps_goroutine b : ignores_control R -> keeps R (goroutine b).
Proof. intros [_ H] w [ ] w' E. injection E as <-. apply H. Qed.

Lemma keeps_dispatcher_iter cli ev :
  quiet R -> ignores_control R -> keeps R (dispatcher_iter cli ev).
Proof.
  intros HQ HC. pose proof HQ as (Hr & Ho & Hl & Hs).
  unfold dispatcher_iter, dispatcher_select.
  repeat first
    [ apply keeps_handleMessage; exact HQ
    | apply keeps_logrus; exact Hl
    | apply keeps_on_outgoing; exact Ho
    | apply keeps_store_ioErr; exact HC
    | apply keeps_goroutine; exact HC
    | keeps_step ].
Qed.

Lemma recv_from_inv ch evs :
  quiet R ->
  (forall ev w w', dispatching w = true ->
     dispatcher_iter addr ev w = Returns (tt, w') -> R w w') ->
  forall w m w', recv_from ch evs w = Returns (m, w') -> R w w'.
Proof.
  intros (Hr & Ho & Hl & Hs) Hiter.
  induction evs as [|ev evs IH]; intros w m w' E; simpl in E.
  - destruct (Router.take ch (router (heap w))) as [[m0 r]|].
    + injection E as _ <-. eapply R_trans; [apply Hr | apply Hs].
    + destruct (dispatching w); discriminate.
  - destruct (Router.take ch (router (heap w))) as [[m0 r]|].
    + injection E as _ <-. eapply R_trans; [apply Hr | apply Hs].
    + destruct (dispatching w) eqn:D; [|discriminate].
      destruct (dispatcher_iter addr ev (set_schedule evs w)) as [[[ ] w1]| |] eqn:E1;
        try discriminate.
      eapply R_trans; [apply (Hs w evs)|].
      eapply R_trans; [eapply Hiter; [|exact E1]; exact D|].
      eapply IH; exact E.
Qed.

Lemma keeps_recv ch :
  quiet R ->
  (forall ev w w', dispatching w = true ->
     dispatcher_iter addr ev w = Returns (tt, w') -> R w w') ->
  keeps R (recv ch).
Proof.
  intros HQ Hiter w m w' E. destruct ch as [c|]; [|discriminate].
  eapply recv_from_inv; eauto.
Qed.

Lemma keeps_OpenDir cli path :
  quiet R ->
  (forall ev w w', dispatching w = true ->
     dispatcher_iter addr ev w = Returns (tt, w') -> R w w') ->
  keeps R (OpenDir cli path).
Proof.
  intros HQ Hiter. unfold OpenDir.
  repeat first
    [ apply keeps_send; exact HQ
    | apply keeps_recv; [exact HQ | exact Hiter]
    | keeps_step ].
Qed.

Lemma keeps_ReadDir cli handle :
  quiet R ->
  (forall ev w w', dispatching w = true ->
     dispatcher_iter addr ev w = Returns (tt, w') -> R w w') ->
  keeps R (ReadDir cli handle).
Proof.
  intros HQ Hiter. pose proof HQ as (Hr & Ho & Hl & Hs). unfold ReadDir.
  repeat first
    [ apply keeps_send; exact HQ
    | apply keeps_recv; [exact HQ | exact Hiter]
    | apply keeps_logrus; exact Hl
    | keeps_step ].
Qed.

End Keeps.

(** *** The relations kept by the client's code *)

Lemma same_control_refl w : same_control w w.
Proof. repeat split. Qed.

Lemma same_control_trans w1 w2 w3 :
  same_control w1 w2 -> same_control w2 w3 -> same_control w1 w3.
Proof. unfold same_control. intros (? & ? & ?) (? & ? & ?). repeat split; congruence. Qed.

Lemma same_control_quiet : quiet same_control.
Proof. repeat split. Qed.

Lemma same_control_ignores_version : ignores_version same_control.
Proof. repeat split. Qed.

Lemma same_version_refl w : same_version w w.
Proof. reflexivity. Qed.

Lemma same_version_trans w1 w2 w3 :
  same_version w1 w2 -> same_version w2 w3 -> same_version w1 w3.
Proof. unfold same_version. congruence. Qed.

Lemma same_version_quiet : quiet same_version.
Proof. repeat split. Qed.

Lemma same_version_ignores_control : ignores_control same_version.
Proof. repeat split. Qed.

Lemma advance_refl w : advance w w.
Proof. left. apply same_control_refl. Qed.

Lemma advance_trans w1 w2 w3 : advance w1 w2 -> advance w2 w3 -> advance w1 w3.
Proof.
  unfold advance, same_control.
  intros [(E1 & E2 & E3)|(D1 & D2 & H12)] [(F1 & F2 & F3)|(G1 & G2 & H23)].
  - left. repeat split; congruence.
  - right. rewrite E3 in G1. split; [exact G1|]. split; [exact G2|].
    rewrite E1, E2 in H23. exact H23.
  - right. split; [exact D1|]. split; [congruence|].
    rewrite F1, F2. exact H12.
  - congruence.
Qed.

Lemma advance_quiet : quiet advance.
Proof. repeat split; intros; left; repeat split. Qed.

Lemma recorded_once_advance w w' : recorded_once w -> advance w w' -> recorded_once w'.
Proof.
  unfold recorded_once, advance, same_control.
  intros (L & D & I) [(E1 & E2 & E3)|(D1 & D2 & [(E1 & E2)|(e & E1 & E2)])].
  - rewrite E1, E2, E3. auto.
  - rewrite E1, E2, D2. repeat split; auto; discriminate.
  - rewrite E1, E2, D2, (D D1). repeat split; simpl; auto; discriminate.
Qed.

Lemma dispatcher_iter_advance ev w w' :
  dispatching w = true ->
  dispatcher_iter addr ev w = Returns (tt, w') -> advance w w'.
Proof.
  intros D E. unfold dispatcher_iter, dispatcher_select in E.
  destruct ev as [pkt|[e|]].
  - left.
    apply bind_inv in E as (brk & w1 & E1 & E2).
    apply bind_inv in E1 as (err & w2 & E3 & E4).
    apply bind_inv in E4 as ([ ] & w3 & E5 & E6).
    injection E6 as <- <-. simpl in E2. injection E2 as <-.
    pose proof (keeps_handleMessage _ same_control_refl same_control_trans
                  addr pkt same_control_quiet _ _ _ E3) as H.
    eapply same_control_trans; [exact H|].
    destruct err; injection E5 as <-; repeat split.
  - monad in E. simpl in E.
    destruct (closed (outgoing (heap w))); [discriminate|].
    injection E as <-. right. simpl. split; [exact D|]. split; [reflexivity|].
    right. exists e. split; reflexivity.
  - monad in E. simpl in E.
    destruct (closed (outgoing (heap w))); [discriminate|].
    injection E as <-. right. simpl. split; [exact D|]. split; [reflexivity|].
    left. split; reflexivity.
Qed.

(** *** What [send] does on the session's client *)

Lemma send_addr (x : Message) (w : World) :
  send addr x w =
    let '(x1, res, w1) := reserve x w in
    match Encode x1 with
    | Err e => Returns ((None, Some e), w1)
    | Ok pkt =>
        if closed (outgoing (heap w1)) then Panics "send on closed channel"
        else Returns ((res, None),
               set_heap (set_outgoing (mkChan false (sent (outgoing (heap w1)) ++ [pkt]))
                           (heap w1)) w1)
    end.
Proof.
  unfold send, reserve. monad.
  destruct (GetID x); simpl.
  - destruct (Encode _); simpl; [|reflexivity].
    destruct (closed _); reflexivity.
  - destruct (Encode _); simpl; [|reflexivity].
    destruct (closed _); reflexivity.
Qed.

(** *** The handshake *)

Lemma DoHandshake_addr (w : World) :
  DoHandshake addr w =
    match Encode (Init 3) with
    | Err e => Returns (Some e, w)
    | Ok pkt0 =>
        if closed (outgoing (heap w)) then Panics "send on closed channel"
        else
          match next_incoming (schedule w) with
          | None => Blocks
          | Some (first, rest) =>
              let w2 := set_schedule rest (pushed pkt0 w) in
              match handshake_verdict (Decode first) with
              | Some e => Returns (Some e, w2)
              | None => Returns (None, set_heap (set_version 3 (heap w2)) w2)
              end
          end
    end.
Proof.
  unfold DoHandshake.
  unfold mbind at 1, M_bind at 1. rewrite send_addr. simpl.
  destruct (Encode (Init 3)) as [pkt0|e]; [|reflexivity].
  destruct (closed (outgoing (heap w))); [reflexivity|]. simpl.
  unfold recv_incoming, pushed. monad. simpl.
  destruct (next_incoming (schedule w)) as [[first rest]|]; [|reflexivity].
  destruct (Decode first) as [m|e]; [|reflexivity].
  destruct m as [|v| | | | |]; try reflexivity. simpl.
  destruct (decide (v ≠ 3)) as [Hv|Hv]; [reflexivity|].
  apply dec_stable in Hv. subst. reflexivity.
Qed.

Lemma NewClient_cases (rw : list event) :
  NewClient rw =
    match Encode (Init 3) with
    | Err e => Returns (nil, failed_world [] e rw)
    | Ok pkt0 =>
        match next_incoming rw with
        | None => Blocks
        | Some (first, rest) =>
            match handshake_verdict (Decode first) with
            | Some e => Returns (nil, failed_world [pkt0] e rest)
            | None => Returns (addr, ready_world pkt0 rest)
            end
        end
    end.
Proof.
  unfold NewClient. unfold mbind at 1, M_bind at 1.
  rewrite DoHandshake_addr. simpl.
  destruct (Encode (Init 3)) as [pkt0|e]; [|reflexivity].
  destruct (next_incoming rw) as [[first rest]|]; [|reflexivity].
  simpl. destruct (handshake_verdict (Decode first)); reflexivity.
Qed.

(** *** The session error *)

Lemma session_step_advance cli w w' : session_step cli w w' -> advance w w'.
Proof.
  intros [ev evs Hs D E|path r E|handle r E|v E|r E].
  - eapply advance_trans; [|eapply dispatcher_iter_advance; [|exact E]; exact D].
    left. repeat split.
  - exact (keeps_OpenDir advance advance_refl advance_trans cli path
             advance_quiet dispatcher_iter_advance _ _ _ E).
  - exact (keeps_ReadDir advance advance_refl advance_trans cli handle
             advance_quiet dispatcher_iter_advance _ _ _ E).
  - exact (keeps_Version advance advance_refl advance_trans cli _ _ _ E).
  - left.
    exact (keeps_DoHandshake same_control same_control_refl same_control_trans cli
             same_control_quiet same_control_ignores_version _ _ _ E).
Qed.

Lemma NewClient_recorded_once rw cli w :
  NewClient rw = Returns (cli, w) -> recorded_once w.
Proof.
  rewrite NewClient_cases. intros E.
  destruct (Encode (Init 3)) as [pkt0|e].
  - destruct (next_incoming rw) as [[first rest]|]; [|discriminate].
    destruct (handshake_verdict (Decode first)); injection E as _ <-;
      repeat split; simpl; auto; discriminate.
  - injection E as _ <-. repeat split; simpl; auto; discriminate.
Qed.

Lemma session_recorded_once cli w : session cli w -> recorded_once w.
Proof.
  induction 1 as [rw w E|w w' _ IH Hstep].
  - eapply NewClient_recorded_once; exact E.
  - eapply recorded_once_advance; [exact IH|].
    eapply session_step_advance; exact Hstep.
Qed.

Lemma dispatcher_first_outcome pre e post :
  Forall is_incoming pre ->
  forall w w', dispatching w = true ->
    dispatcher addr (pre ++ Errch e :: post) w = Returns (tt, w') ->
    dispatching w' = false /\ schedule w' = post /\
    ioErr_stores w' = (ioErr_stores w ++ match e with Some x => [x] | None => [] end)%list /\
    ioErr (heap w') = match e with Some x => Some x | None => ioErr (heap w) end.
Proof.
  induction 1 as [|ev pre Hev Hpre IH]; intros w w' D E; simpl in E; rewrite D in E.
  - destruct (dispatcher_iter addr (Errch e) (set_schedule post w))
      as [[[ ] w1]| |] eqn:E1; try discriminate.
    unfold dispatcher_iter, dispatcher_select in E1. monad in E1. simpl in E1.
    destruct e as [x|]; simpl in E1;
      (destruct (closed (outgoing (heap w))); [discriminate|]);
      injection E1 as <-; destruct post; simpl in E; injection E as <-; simpl;
      rewrite ?app_nil_r; auto.
  - destruct ev as [pkt|]; [|contradiction].
    destruct (dispatcher_iter addr (Incoming pkt) (set_schedule (pre ++ Errch e :: post) w))
      as [[[ ] w1]| |] eqn:E1; try discriminate.
    assert (same_control w w1) as (C1 & C2 & C3).
    { unfold dispatcher_iter, dispatcher_select in E1.
      apply bind_inv in E1 as (brk & w2 & E2 & E3).
      apply bind_inv in E2 as (err & w3 & E4 & E5).
      apply bind_inv in E5 as ([ ] & w4 & E6 & E7).
      injection E7 as <- <-. simpl in E3. injection E3 as <-.
      pose proof (keeps_handleMessage _ same_control_refl same_control_trans
                    addr pkt same_control_quiet _ _ _ E4) as H.
      eapply same_control_trans; [|eapply same_control_trans; [exact H|]].
      - repeat split.
      - destruct err; injection E6 as <-; repeat split. }
    rewrite <- C1, <- C2. apply IH; [congruence|exact E].
Qed.

(** *** Construction and handshake *)


Lemma session_version cli w : session cli w -> cli <> nil -> version (heap w) = 3.
Proof.
  intros Hs Hcli. destruct cli; [congruence|]. clear Hcli.
  induction Hs as [rw w E|w w' _ IH Hstep].
  - rewrite NewClient_cases in E.
    destruct (Encode (Init 3)); [|discriminate].
    destruct (next_incoming rw) as [[first rest]|]; [|discriminate].
    destruct (handshake_verdict (Decode first)); [discriminate|].
    injection E as <-. reflexivity.
  - rewrite <- IH. destruct Hstep as [ev evs Hs D E|path r E|handle r E|v E|r E].
    + exact (keeps_dispatcher_iter same_version same_version_refl same_version_trans
               addr ev same_version_quiet same_version_ignores_control _ _ _ E).
    + refine (keeps_OpenDir same_version same_version_refl same_version_trans addr path
                same_version_quiet _ _ _ _ E).
      intros ev0 w0 w0' _.
      apply (keeps_dispatcher_iter same_version same_version_refl same_version_trans
               addr ev0 same_version_quiet same_version_ignores_control).
    + refine (keeps_ReadDir same_version same_version_refl same_version_trans addr handle
                same_version_quiet _ _ _ _ E).
      intros ev0 w0 w0' _.
      apply (keeps_dispatcher_iter same_version same_version_refl same_version_trans
               addr ev0 same_version_quiet same_version_ignores_control).
    + exact (keeps_Version same_version same_version_refl same_version_trans addr _ _ _ E).
    + rewrite DoHandshake_addr in E.
      destruct (Encode (Init 3)); [|injection E as _ <-; reflexivity].
      destruct (closed (outgoing (heap w))); [discriminate|].
      destruct (next_incoming (schedule w)) as [[first rest]|]; [|discriminate].
      simpl in E. destruct (handshake_verdict (Decode first));
        injection E as _ <-; simpl; congruence.
Qed.

(** C5: when the handshake frame [init(version=3)] was sent and the first
    inbound frame decodes to [version(3)], [DoHandshake] returns [nil] and
    records 3 as the negotiated version; [NewClient] returns the client
    with the dispatcher started and the outbound queue open, and
    [Version()] returns 3. *)
Theorem handshake_success (rw rest : list event) (pkt0 first : Packet) :
  Encode (Init 3) = Ok pkt0 ->
  next_incoming rw = Some (first, rest) ->
  Decode first = Ok (sshfxp.Version 3) ->
  exists w0 w,
    DoHandshake addr (new_world rw) = Returns (None, w0) /\
    version (heap w0) = 3 /\
    NewClient rw = Returns (addr, w) /\
    outgoing (heap w) = mkChan false [pkt0] /\
    dispatching w = true /\
    version (heap w) = 3 /\
    Version addr w = Returns (3, w).
Proof.
  intros He Hn Hd.
  rewrite NewClient_cases, DoHandshake_addr, He. simpl. rewrite Hn, Hd. simpl.
  eexists _, _. repeat split.
Qed.

(** C10: in every world of a session whose construction returned a
    client, from [NewClient] on and through every later step of the
    dispatcher and every later call, [Version()] returns exactly 3. *)
Theorem negotiated_version_is_3 (cli : ptr) (w : World) :
  session cli w -> cli <> nil -> Version cli w = Returns (3, w).
Proof.
  intros Hs Hcli. pose proof (session_version cli w Hs Hcli) as Hv.
  destruct cli; [congruence|]. unfold Version. monad. now rewrite Hv.
Qed.


(** C2, as amended: [NewClient] runs the handshake before it returns.
    When the handshake succeeds it returns the client, ready: version 3,
    dispatcher started, outbound queue open, no session error.  When the
    handshake fails it logs the error, closes the outbound queue and both
    halves of the stream and waits for the two pumps to end; when it
    returns it returns [nil], the error being stored in the client it
    gives up: the caller receives no error value. *)
Theorem NewClient_ready_or_nil (rw : list event) :
  (forall w0,
     DoHandshake addr (new_world rw) = Returns (None, w0) ->
     exists w,
       NewClient rw = Returns (addr, w) /\
       dispatching w = true /\ version (heap w) = 3 /\ ioErr (heap w) = None /\
       closed (outgoing (heap w)) = false) /\
  (forall cli w,
     NewClient rw = Returns (cli, w) ->
     exists r w0,
       DoHandshake addr (new_world rw) = Returns (r, w0) /\
       match r with
       | None => cli = addr /\ dispatching w = true
       | Some e =>
           cli = nil /\
           Errorf "SFTP handshake failed: %s" [AErr e] ∈ logs w /\
           Infof "SFTP client writer exited" [] ∈ logs w /\
           Infof "SFTP client reader exited" [] ∈ logs w /\
           ioErr (heap w) = Some e /\
           closed (outgoing (heap w)) = true /\
           reader (heap w) = true /\ writer (heap w) = true /\
           dispatching w = false
       end).
Proof.
  rewrite NewClient_cases, DoHandshake_addr. simpl.
  destruct (Encode (Init 3)) as [pkt0|e0].
  - destruct (next_incoming rw) as [[first rest]|]; simpl.
    + destruct (handshake_verdict (Decode first)) as [e|]; split.
      * intros w0 H. discriminate H.
      * intros cli w H. injection H as <- <-. eexists (Some e), _.
        split; [reflexivity|]. simpl. repeat split; set_solver.
      * intros w0 _. eexists. repeat split.
      * intros cli w H. injection H as <- <-. eexists None, _.
        split; [reflexivity|]. split; reflexivity.
    + split; [intros w0 H|intros cli w H]; discriminate H.
  - split.
    + intros w0 H. discriminate H.
    + intros cli w H. injection H as <- <-. eexists (Some e0), _.
      split; [reflexivity|]. simpl. repeat split; set_solver.
Qed.

(** *** Requests and responses *)

(** C4: whatever response reaches the slot of an [OpenDir] call, a
    [Handle] makes the call return its handle and [nil]; a [Status] makes
    it return the error whose text is the server's code in decimal, " - "
    and the server's message, a text that determines both fields; any
    other variant makes it return the error "unexpected response: "
    followed by the rendering of the response. *)
Theorem OpenDir_interprets_response (w w1 w2 : World) (path : string)
    (ch : option N) (res : Message) :
  send addr (sshfxp.OpenDir 0 path) w = Returns ((ch, None), w1) ->
  recv ch w1 = Returns (res, w2) ->
  exists r,
    OpenDir addr path w = Returns (r, w2) /\
    match res with
    | Handle _ h => r = (h, None)
    | Status _ code text =>
        r = ("", Some (fmt_d code +:+ " - " +:+ text)) /\
        forall code' text',
          fmt_d code' +:+ " - " +:+ text' = fmt_d code +:+ " - " +:+ text ->
          code' = code /\ text' = text
    | _ => r = ("", Some ("unexpected response: " +:+ GoString res))
    end.
Proof.
  intros Hsend Hrecv. exists (OpenDir_switch res). split.
  - unfold OpenDir. rewrite (bind_returns _ _ _ _ _ Hsend). simpl.
    rewrite (bind_returns _ _ _ _ _ Hrecv). reflexivity.
  - destruct res; simpl; try reflexivity.
    split; [reflexivity|]. intros code' text'. apply status_error_inj.
Qed.

(** Whatever [ReadDir] returns, its list of entries is empty. *)
Lemma ReadDir_returns_nil (cli : ptr) (handle : string) (w w' : World) r :
  ReadDir cli handle w = Returns (r, w') -> r.1 = [].
Proof.
  unfold ReadDir. intros E.
  apply bind_inv in E as (rs & w1 & _ & E).
  destruct rs.2.
  - injection E as <- _. reflexivity.
  - apply bind_inv in E as (res & w2 & _ & E).
    apply bind_inv in E as (u & w3 & _ & E).
    injection E as <- _. reflexivity.
Qed.

(** *** The dispatcher *)

Lemma set_router_same (c : Client) : set_router (router c) c = c.
Proof. destruct c; reflexivity. Qed.

(** C7: when the dispatcher takes an inbound frame whose message has no
    outstanding request, [handleMessage] returns the routing error, the
    loop logs it ("failed to handle message") and goes on with the next
    event: the client, the session error and the dispatcher are as they
    were. *)
Theorem routing_error_not_fatal (w : World) (pkt : Packet) (m : Message) :
  dispatching w = true ->
  Decode pkt = Ok m ->
  (forall id, GetID m = Some id -> id ∉ Router.pending (router (heap w))) ->
  exists w1 w',
    handleMessage addr pkt w = Returns (Some Router.RoutingError, w1) /\
    dispatcher_iter addr (Incoming pkt) w = Returns (tt, w') /\
    logs w' = (logs w ++
               [Infof "Got message: Len=%d Type=%d: %#v"
                  [AUint (Length pkt); AUint (Type_ pkt); APacket pkt];
                Errorf "failed to handle message: %s" [AErr Router.RoutingError]])%list /\
    heap w' = heap w /\
    dispatching w' = true /\
    ioErr_stores w' = ioErr_stores w /\
    forall evs,
      dispatcher addr (Incoming pkt :: evs) w = dispatcher addr evs (set_schedule evs w').
Proof.
  intros D Hd Hid.
  assert (Router.Resolve m (router (heap w)) = (Some Router.RoutingError, router (heap w)))
    as HR.
  { unfold Router.Resolve. destruct (GetID m) as [id|] eqn:G; [|reflexivity].
    destruct (decide (id ∈ Router.pending (router (heap w)))) as [Hin|]; [|reflexivity].
    destruct (Hid id eq_refl Hin). }
  assert (forall w0, heap w0 = heap w ->
            handleMessage addr pkt w0 =
              Returns (Some Router.RoutingError,
                       mkWorld (heap w)
                         (logs w0 ++
                          [Infof "Got message: Len=%d Type=%d: %#v"
                             [AUint (Length pkt); AUint (Type_ pkt); APacket pkt]])
                         (schedule w0) (dispatching w0) (ioErr_stores w0))) as HM.
  { intros w0 Hw0. unfold handleMessage. monad. simpl. rewrite Hd. simpl.
    rewrite Hw0, HR. simpl. unfold set_heap. simpl. now rewrite set_router_same. }
  assert (forall w0, heap w0 = heap w ->
            dispatcher_iter addr (Incoming pkt) w0 =
              Returns (tt,
                       mkWorld (heap w)
                         ((logs w0 ++
                           [Infof "Got message: Len=%d Type=%d: %#v"
                              [AUint (Length pkt); AUint (Type_ pkt); APacket pkt]]) ++
                          [Errorf "failed to handle message: %s" [AErr Router.RoutingError]])
                         (schedule w0) (dispatching w0) (ioErr_stores w0))) as HI.
  { intros w0 Hw0. unfold dispatcher_iter, dispatcher_select.
    rewrite (bind_returns _ _ _ _ _
               (bind_returns _ _ _ _ _ (HM w0 Hw0))). reflexivity. }
  eexists _, _. split; [apply HM; reflexivity|].
  split; [apply HI; reflexivity|]. simpl.
  split; [now rewrite <- app_assoc|].
  split; [reflexivity|]. split; [exact D|]. split; [reflexivity|].
  intros evs. simpl. rewrite D, (HI (set_schedule evs w) eq_refl). simpl.
  rewrite D. reflexivity.
Qed.

(** C1, as amended: when a pump reports an error while the dispatcher
    runs, the dispatcher records it as the session error, closes the
    outbound queue and ends; it leaves the router as it is, so a request
    whose slot is still empty stays unanswered and its caller blocks. *)
Theorem closing_leaves_requests_pending (w : World) (e : error) :
  dispatching w = true ->
  closed (outgoing (heap w)) = false ->
  exists w',
    dispatcher_iter addr (Errch (Some e)) w = Returns (tt, w') /\
    ioErr (heap w') = Some e /\
    outgoing (heap w') = mkChan true (sent (outgoing (heap w))) /\
    dispatching w' = false /\
    router (heap w') = router (heap w) /\
    forall ch, Router.slots (router (heap w)) !! ch = None ->
      recv (Some ch) w' = Blocks.
Proof.
  intros D C. unfold dispatcher_iter, dispatcher_select. monad. simpl.
  rewrite C. eexists. split; [reflexivity|]. simpl. repeat split.
  intros ch Hch. unfold Router.take.
  destruct (schedule w); simpl; unfold Router.take; rewrite Hch; reflexivity.
Qed.

(** C8, as amended: once the outbound queue is closed, [send], [OpenDir]
    and [ReadDir] neither block nor yield a result, and they put nothing
    on the queue; all such a call can return is the error of the encoding
    that failed. *)
Theorem closed_queue_no_result (w : World) :
  closed (outgoing (heap w)) = true ->
  (forall x,
     send addr x w <> Blocks /\
     forall r w', send addr x w = Returns (r, w') ->
       (exists e x', r = (None, Some e) /\ Encode x' = Err e) /\
       outgoing (heap w') = outgoing (heap w)) /\
  (forall path,
     OpenDir addr path w <> Blocks /\
     forall r w', OpenDir addr path w = Returns (r, w') ->
       (exists e x', r = ("", Some e) /\ Encode x' = Err e) /\
       outgoing (heap w') = outgoing (heap w)) /\
  (forall handle,
     ReadDir addr handle w <> Blocks /\
     forall r w', ReadDir addr handle w = Returns (r, w') ->
       (exists e x', r = ([], Some e) /\ Encode x' = Err e) /\
       outgoing (heap w') = outgoing (heap w)).
Proof.
  intros C.
  assert (forall x,
            (exists s, send addr x w = Panics s) \/
            (exists e x' w', send addr x w = Returns ((None, Some e), w') /\
                             Encode x' = Err e /\
                             outgoing (heap w') = outgoing (heap w))) as Hsend.
  { intros x. rewrite send_addr. unfold reserve.
    destruct (GetID x); simpl.
    - destruct (Encode _) as [pkt|e] eqn:E.
      + rewrite C. left. eauto.
      + right. eexists e, _, _. repeat split. exact E.
    - destruct (Encode _) as [pkt|e] eqn:E.
      + rewrite C. left. eauto.
      + right. eexists e, _, _. repeat split. exact E. }
  split; [|split].
  - intros x. destruct (Hsend x) as [[s E]|(e & x' & w' & E & He & Ho)]; rewrite E.
    + split; [discriminate|]. intros r w0 H. discriminate H.
    + split; [discriminate|]. intros r w0 H. injection H as <- <-. eauto.
  - intros path. unfold OpenDir.
    destruct (Hsend (sshfxp.OpenDir 0 path)) as [[s E]|(e & x' & w' & E & He & Ho)].
    + rewrite (bind_panics _ _ _ _ E).
      split; [discriminate|]. intros r w0 H. discriminate H.
    + rewrite (bind_returns _ _ _ _ _ E). simpl.
      split; [discriminate|]. intros r w0 H. injection H as <- <-. eauto.
  - intros handle. unfold ReadDir.
    destruct (Hsend (sshfxp.ReadDir 0 handle)) as [[s E]|(e & x' & w' & E & He & Ho)].
    + rewrite (bind_panics _ _ _ _ E).
      split; [discriminate|]. intros r w0 H. discriminate H.
    + rewrite (bind_returns _ _ _ _ _ E). simpl.
      split; [discriminate|]. intros r w0 H. injection H as <- <-. eauto.
Qed.

(** C9: in every world of a session the session error was assigned at
    most once and [cli.ioErr] holds that one assignment; none happens
    while the dispatcher runs.  The dispatcher records the first pump
    outcome it receives and ends, leaving every later event unread; and
    once it has ended no step of the session changes the session error. *)
Theorem ioErr_written_at_most_once (cli : ptr) (w : World) :
  session cli w ->
  (length (ioErr_stores w) <= 1)%nat /\
  ioErr (heap w) = head (ioErr_stores w) /\
  (dispatching w = true -> ioErr_stores w = []) /\
  (forall pre e post w',
     Forall is_incoming pre -> dispatching w = true ->
     dispatcher addr (pre ++ Errch e :: post) w = Returns (tt, w') ->
     dispatching w' = false /\ schedule w' = post /\
     ioErr (heap w') = e /\
     ioErr_stores w' = match e with Some x => [x] | None => [] end) /\
  (forall w',
     dispatching w = false -> session_step cli w w' ->
     ioErr (heap w') = ioErr (heap w) /\ ioErr_stores w' = ioErr_stores w).
Proof.
  intros Hs. destruct (session_recorded_once cli w Hs) as (L & D & I).
  split; [exact L|]. split; [exact I|]. split; [exact D|]. split.
  - intros pre e post w' Hpre Hd E.
    destruct (dispatcher_first_outcome pre e post Hpre w w' Hd E) as (E1 & E2 & E3 & E4).
    rewrite E3, E4, I, (D Hd). repeat split; auto; destruct e; reflexivity.
  - intros w' Hd Hstep.
    destruct (session_step_advance cli w w' Hstep) as [(E1 & E2 & _)|(D1 & _)];
      [auto|congruence].
Qed.

(** ** More on [client.go] *)

(** *** The dispatcher, step by step *)

Lemma dispatcher_iter_incoming (pkt : Packet) (w : World) :
  dispatcher_iter addr (Incoming pkt) w =
    Returns (tt, mkWorld (set_router (routed pkt (router (heap w))) (heap w))
                   (logs w ++ handling_log pkt (router (heap w)))
                   (schedule w) (dispatching w) (ioErr_stores w)).
Proof.
  unfold dispatcher_iter, dispatcher_select, handleMessage, routed, handling_log.
  monad. simpl. destruct (Decode pkt) as [m|e]; simpl.
  - destruct (Router.Resolve m (router (heap w))) as [[e|] r]; simpl;
      rewrite <- ?app_assoc; reflexivity.
  - rewrite set_router_same, <- app_assoc. reflexivity.
Qed.

Lemma dispatcher_iter_outcome (e : option error) (w : World) :
  dispatcher_iter addr (Errch e) w =
    if closed (outgoing (heap w)) then Panics "close of closed channel"
    else
      Returns (tt,
        mkWorld
          (set_outgoing (mkChan true (sent (outgoing (heap w))))
             match e with
             | Some x => set_ioErr (Some x) (heap w)
             | None => heap w
             end)
          (logs w ++
           match e with
           | Some x => [Errorf "received error: %s" [AErr x]]
           | None => []
           end ++ [Infof "received nil on errch" []])
          (schedule w) false
          (ioErr_stores w ++ match e with Some x => [x] | None => [] end)).
Proof.
  unfold dispatcher_iter, dispatcher_select. monad. simpl.
  destruct e as [x|]; simpl; destruct (closed (outgoing (heap w))); try reflexivity.
  - rewrite <- app_assoc. reflexivity.
  - rewrite app_nil_r. reflexivity.
Qed.

(** *** Construction *)

Lemma next_incoming_None (rw : list event) :
  next_incoming rw = None <-> forall pkt, Incoming pkt ∉ rw.
Proof.
  induction rw as [|[pkt|e] rw IH]; simpl.
  - split; [|reflexivity]. intros _ pkt H. inversion H.
  - split; [discriminate|]. intros H. destruct (H pkt). left.
  - destruct (next_incoming rw) as [[pkt rest]|].
    + split; [discriminate|]. intros H. destruct IH as [_ IH].
      assert (Some (pkt, rest) = None) as F; [|discriminate F].
      apply IH. intros p Hp. apply (H p). now right.
    + split; [|reflexivity]. intros _ p Hp. inversion Hp; subst.
      destruct IH as [IH _]. apply (IH eq_refl p). assumption.
Qed.

(** X1: [NewClient] never panics; and when the init frame was encoded and
    no inbound frame ever arrives it never returns, whatever the pumps
    report on [errch] meanwhile: the handshake waits on [cli.incoming]
    alone. *)
Theorem NewClient_never_panics (rw : list event) :
  (forall s, NewClient rw <> Panics s) /\
  (forall pkt0,
     Encode (Init 3) = Ok pkt0 -> (forall pkt, Incoming pkt ∉ rw) ->
     NewClient rw = Blocks).
Proof.
  rewrite NewClient_cases. split.
  - destruct (Encode (Init 3)) as [pkt0|e]; [|discriminate].
    destruct (next_incoming rw) as [[first rest]|]; [|discriminate].
    destruct (handshake_verdict (Decode first)); discriminate.
  - intros pkt0 He Hn. apply next_incoming_None in Hn. now rewrite He, Hn.
Qed.

(** X2: when [NewClient] returns, with a client or with [nil], the only
    frame it has put on the outbound queue is the encoding of
    [init(version=3)] (none if that encoding failed), the router has
    reserved no id, and the queue is closed exactly when [nil] is
    returned. *)
Theorem handshake_sends_only_init (rw : list event) (cli : ptr) (w : World) :
  NewClient rw = Returns (cli, w) ->
  sent (outgoing (heap w)) =
    match Encode (Init 3) with
    | Ok pkt0 => [pkt0]
    | Err _ => []
    end /\
  router (heap w) = Router.NewRouter /\
  (closed (outgoing (heap w)) = true <-> cli = nil).
Proof.
  rewrite NewClient_cases.
  destruct (Encode (Init 3)) as [pkt0|e].
  - destruct (next_incoming rw) as [[first rest]|]; [|discriminate].
    destruct (handshake_verdict (Decode first)); intros E; injection E as <- <-;
      simpl; repeat split; auto; discriminate.
  - intros E. injection E as <- <-. simpl. repeat split; auto.
Qed.

(** X3: [DoHandshake], in whatever state it is called, leaves the router,
    the session error and the dispatcher alone; when it returns an error
    the negotiated version is what it was, and when it returns [nil] the
    version is 3. *)
Theorem DoHandshake_stores_version_on_success (w w' : World) (r : option error) :
  DoHandshake addr w = Returns (r, w') ->
  router (heap w') = router (heap w) /\
  ioErr (heap w') = ioErr (heap w) /\
  ioErr_stores w' = ioErr_stores w /\
  dispatching w' = dispatching w /\
  match r with
  | Some _ => version (heap w') = version (heap w)
  | None => version (heap w') = 3
  end.
Proof.
  rewrite DoHandshake_addr.
  destruct (Encode (Init 3)) as [pkt0|e].
  - destruct (closed (outgoing (heap w))); [discriminate|].
    destruct (next_incoming (schedule w)) as [[first rest]|]; [|discriminate].
    simpl. destruct (handshake_verdict (Decode first)); intros E;
      injection E as <- <-; repeat split.
  - intros E. injection E as <- <-. repeat split.
Qed.

(** *** Inbound frames and pump outcomes *)

(** X4: a frame that cannot be decoded does not end the session:
    [handleMessage] returns "failed to decode message: " followed by the
    codec's error without consulting the router, the dispatcher logs it
    and goes on with the next event. *)
Theorem decode_error_not_fatal (w : World) (pkt : Packet) (e : error) :
  Decode pkt = Err e ->
  exists w1 w',
    handleMessage addr pkt w
      = Returns (Some ("failed to decode message: " +:+ e), w1) /\
    dispatcher_iter addr (Incoming pkt) w = Returns (tt, w') /\
    heap w' = heap w /\
    dispatching w' = dispatching w /\
    ioErr_stores w' = ioErr_stores w /\
    logs w' = (logs w ++
               [Infof "Got message: Len=%d Type=%d: %#v"
                  [AUint (Length pkt); AUint (Type_ pkt); APacket pkt];
                Errorf "failed to handle message: %s"
                  [AErr ("failed to decode message: " +:+ e)]])%list /\
    forall evs,
      dispatching w = true ->
      dispatcher addr (Incoming pkt :: evs) w = dispatcher addr evs (set_schedule evs w').
Proof.
  intros Hd. eexists _, _. split.
  { unfold handleMessage. monad. simpl. rewrite Hd. reflexivity. }
  split; [apply dispatcher_iter_incoming|].
  unfold routed, handling_log. rewrite Hd. simpl.
  split; [apply set_router_same|]. repeat split.
  intros evs D. simpl. rewrite D, dispatcher_iter_incoming.
  unfold routed, handling_log. rewrite Hd. simpl. rewrite D. reflexivity.
Qed.

(** X5: a pump that reports [nil] ends the session just as an error does:
    the dispatcher logs "received nil on errch", closes the outbound
    queue and stops, and no session error is recorded; the next request
    whose encoding succeeds then panics on the closed queue. *)
Theorem clean_outcome_ends_session (w : World) :
  dispatching w = true ->
  closed (outgoing (heap w)) = false ->
  exists w',
    dispatcher_iter addr (Errch None) w = Returns (tt, w') /\
    dispatching w' = false /\
    outgoing (heap w') = mkChan true (sent (outgoing (heap w))) /\
    ioErr (heap w') = ioErr (heap w) /\
    ioErr_stores w' = ioErr_stores w /\
    router (heap w') = router (heap w) /\
    logs w' = (logs w ++ [Infof "received nil on errch" []])%list /\
    forall path pkt,
      Encode (sshfxp.OpenDir (Router.Get (router (heap w))).1.1 path) = Ok pkt ->
      OpenDir addr path w' = Panics "send on closed channel".
Proof.
  intros D C. rewrite dispatcher_iter_outcome, C. eexists. split; [reflexivity|].
  simpl. rewrite app_nil_r. repeat split.
  intros path pkt He. unfold OpenDir.
  apply bind_panics. rewrite send_addr. unfold reserve. simpl.
  simpl in He. rewrite He. reflexivity.
Qed.

(** *** The outbound queue and the stream *)

Lemma send_inv (x : Message) (w w' : World) r :
  send addr x w = Returns (r, w') ->
  (exists e, Encode (reserve x w).1.1 = Err e /\ r = (None, Some e) /\
             w' = (reserve x w).2) \/
  (exists pkt, Encode (reserve x w).1.1 = Ok pkt /\
               closed (outgoing (heap w)) = false /\
               r = ((reserve x w).1.2, None) /\
               w' = pushed pkt (reserve x w).2).
Proof.
  rewrite send_addr.
  assert (closed (outgoing (heap (reserve x w).2)) = closed (outgoing (heap w))) as Hc.
  { unfold reserve. destruct (GetID x); reflexivity. }
  destruct (reserve x w) as [[x1 res] w1]. simpl in *.
  destruct (Encode x1) as [pkt|e].
  - rewrite Hc. destruct (closed (outgoing (heap w))); [discriminate|].
    intros E. injection E as <- <-. right. eauto.
  - intros E. injection E as <- <-. left. eauto.
Qed.

Lemma reserve_wired (x : Message) (w : World) :
  wired w -> wired (reserve x w).2 /\ dispatching (reserve x w).2 = dispatching w.
Proof. unfold reserve. destruct (GetID x); simpl; auto. Qed.

Lemma send_wired (x : Message) (w w' : World) r :
  send addr x w = Returns (r, w') -> wired w -> wired w'.
Proof.
  intros E Hw. destruct (reserve_wired x w Hw) as [(H1 & H2 & H3) D].
  apply send_inv in E as [(e & _ & _ & ->)|(pkt & _ & C & _ & ->)].
  - repeat split; assumption.
  - unfold pushed. repeat split; simpl; try assumption.
    destruct Hw as (Hw & _ & _). rewrite D. congruence.
Qed.

Lemma dispatcher_iter_wired (ev : event) (w : World) :
  dispatching w = true -> wired w ->
  exists w', dispatcher_iter addr ev w = Returns (tt, w') /\ wired w'.
Proof.
  intros D (C & Hr & Hw). rewrite D in C. simpl in C. destruct ev as [pkt|e].
  - rewrite dispatcher_iter_incoming. eexists. split; [reflexivity|].
    repeat split; simpl; try assumption. now rewrite D.
  - rewrite dispatcher_iter_outcome, C. eexists. split; [reflexivity|].
    destruct e; repeat split; simpl; assumption.
Qed.

Lemma dispatcher_wired (evs : list event) :
  forall w, wired w -> exists w', dispatcher addr evs w = Returns (tt, w') /\ wired w'.
Proof.
  induction evs as [|ev evs IH]; intros w Hw; simpl.
  - destruct (dispatching w); eexists; (split; [reflexivity|exact Hw]).
  - destruct (dispatching w) eqn:D; [|eexists; split; [reflexivity|exact Hw]].
    destruct (dispatcher_iter_wired ev (set_schedule evs w) D Hw) as (w1 & E & Hw1).
    rewrite E. apply IH. exact Hw1.
Qed.

Lemma recv_from_wired (ch : N) (evs : list event) :
  forall w, wired w ->
    (forall s, recv_from ch evs w <> Panics s) /\
    (forall m w', recv_from ch evs w = Returns (m, w') -> wired w').
Proof.
  induction evs as [|ev evs IH]; intros w Hw; simpl.
  - destruct (Router.take ch (router (heap w))) as [[m r]|].
    + split; [discriminate|]. intros m0 w' E. injection E as _ <-. exact Hw.
    + destruct (dispatching w); split; discriminate.
  - destruct (Router.take ch (router (heap w))) as [[m r]|].
    + split; [discriminate|]. intros m0 w' E. injection E as _ <-. exact Hw.
    + destruct (dispatching w) eqn:D; [|split; discriminate].
      destruct (dispatcher_iter_wired ev (set_schedule evs w) D Hw) as (w1 & E & Hw1).
      rewrite E. apply IH. exact Hw1.
Qed.

Lemma session_wired (w : World) : session addr w -> wired w.
Proof.
  induction 1 as [rw w E|w w' _ IH Hstep].
  - rewrite NewClient_cases in E.
    destruct (Encode (Init 3)); [|discriminate].
    destruct (next_incoming rw) as [[first rest]|]; [|discriminate].
    destruct (handshake_verdict (Decode first)); [discriminate|].
    injection E as <-. repeat split.
  - destruct Hstep as [ev evs Hs D E|path r E|handle r E|v E|r E].
    + destruct (dispatcher_iter_wired ev (set_schedule evs w) D IH) as (w1 & E1 & Hw1).
      congruence.
    + unfold OpenDir in E. apply bind_inv in E as (rs & w1 & E1 & E2).
      apply send_wired in E1; [|exact IH]. destruct rs.2.
      * injection E2 as _ <-. exact E1.
      * apply bind_inv in E2 as (res & w2 & E2 & E3). injection E3 as _ <-.
        destruct rs.1 as [ch|]; [|discriminate].
        eapply (recv_from_wired ch (schedule w1) w1 E1). exact E2.
    + unfold ReadDir in E. apply bind_inv in E as (rs & w1 & E1 & E2).
      apply send_wired in E1; [|exact IH]. destruct rs.2.
      * injection E2 as _ <-. exact E1.
      * apply bind_inv in E2 as (res & w2 & E2 & E3).
        apply bind_inv in E3 as (u & w3 & E3 & E4).
        injection E4 as _ <-.
        destruct rs.1 as [ch|]; [|discriminate].
        assert (wired w2) as Hw2
          by (eapply (recv_from_wired ch (schedule w1) w1 E1); exact E2).
        injection E3 as _ <-. exact Hw2.
    + injection E as _ <-. exact IH.
    + rewrite DoHandshake_addr in E. destruct IH as (C & Hr & Hw).
      destruct (Encode (Init 3)); [|injection E as _ <-; repeat split; assumption].
      destruct (closed (outgoing (heap w))) eqn:Hc; [discriminate|].
      destruct (next_incoming (schedule w)) as [[first rest]|]; [|discriminate].
      simpl in E. destruct (handshake_verdict (Decode first));
        injection E as _ <-; repeat split; simpl; assumption.
Qed.

(** X6: in a session whose construction returned a client, the outbound
    queue is closed exactly when the dispatcher has ended, and
    [close(cli.outgoing)] is never executed a second time: on every
    sequence of frames and pump outcomes the dispatcher returns, without
    a panic. *)
Theorem queue_closed_once (w : World) :
  session addr w ->
  closed (outgoing (heap w)) = negb (dispatching w) /\
  forall evs, exists w',
    dispatcher addr evs w = Returns (tt, w') /\
    closed (outgoing (heap w')) = negb (dispatching w').
Proof.
  intros Hs. pose proof (session_wired w Hs) as Hw. split; [apply Hw|].
  intros evs. destruct (dispatcher_wired evs w Hw) as (w' & E & Hw').
  exists w'. split; [exact E|apply Hw'].
Qed.

(** X7: a client returned by [NewClient] never calls [Close] on its
    reader nor on its writer, not even once the dispatcher has recorded a
    pump error and closed the queue: only the failed handshake closes the
    stream. *)
Theorem streams_never_closed (w : World) :
  session addr w -> reader (heap w) = false /\ writer (heap w) = false.
Proof. intros Hs. apply (session_wired w Hs). Qed.

(** *** Requests on the wire *)

(** X8: when [send] returns a response channel, or [nil] for a message
    without an id, it has appended exactly one frame to the outbound
    queue, after the frames already there: the encoding of the message
    stamped with the id the router reserved, and the channel returned is
    the one reserved with that id.  A message without an id is encoded as
    it is and leaves the router alone. *)
Theorem send_stamps_reserved_id (x : Message) (w w' : World) (ch : option N) :
  send addr x w = Returns ((ch, None), w') ->
  match GetID x with
  | Some _ =>
      ch = Some (Router.Get (router (heap w))).1.2 /\
      router (heap w') = (Router.Get (router (heap w))).2 /\
      exists pkt,
        Encode (SetID (Router.Get (router (heap w))).1.1 x) = Ok pkt /\
        outgoing (heap w') = mkChan false (sent (outgoing (heap w)) ++ [pkt])
  | None =>
      ch = None /\
      router (heap w') = router (heap w) /\
      exists pkt,
        Encode x = Ok pkt /\
        outgoing (heap w') = mkChan false (sent (outgoing (heap w)) ++ [pkt])
  end.
Proof.
  intros E. apply send_inv in E as [(e & _ & E & _)|(pkt & He & C & Hr & ->)];
    [discriminate E|].
  unfold reserve in *. destruct (GetID x); simpl in *; injection Hr as ->;
    repeat split; eauto.
Qed.

(** X9: when the encoding fails, [send] returns the codec's error and no
    channel and puts nothing on the outbound queue; but the id it had
    reserved for a message with an id stays outstanding in the router. *)
Theorem failed_encoding_keeps_reservation (x : Message) (w w' : World)
    (ch : option N) (e : error) :
  send addr x w = Returns ((ch, Some e), w') ->
  ch = None /\
  outgoing (heap w') = outgoing (heap w) /\
  match GetID x with
  | Some _ =>
      Encode (SetID (Router.Get (router (heap w))).1.1 x) = Err e /\
      router (heap w') = (Router.Get (router (heap w))).2 /\
      (Router.Get (router (heap w))).1.1 ∈ Router.pending (router (heap w'))
  | None => Encode x = Err e /\ router (heap w') = router (heap w)
  end.
Proof.
  intros E. apply send_inv in E as [(e' & He & E & ->)|(pkt & _ & _ & E & _)];
    [|discriminate E].
  injection E as -> <-. unfold reserve in *.
  destruct (GetID x); simpl in *; repeat split; auto. set_solver.
Qed.

Lemma recv_from_sent (ch : N) (evs : list event) :
  forall w m w', recv_from ch evs w = Returns (m, w') ->
    sent (outgoing (heap w')) = sent (outgoing (heap w)).
Proof.
  assert (forall ev w w1, dispatcher_iter addr ev w = Returns (tt, w1) ->
            sent (outgoing (heap w1)) = sent (outgoing (heap w))) as Hiter.
  { intros [pkt|e] w w1.
    - rewrite dispatcher_iter_incoming. intros E. injection E as <-. reflexivity.
    - rewrite dispatcher_iter_outcome. destruct (closed (outgoing (heap w))); [discriminate|].
      intros E. injection E as <-. reflexivity. }
  induction evs as [|ev evs IH]; intros w m w' E; simpl in E.
  - destruct (Router.take ch (router (heap w))) as [[m0 r]|].
    + injection E as _ <-. reflexivity.
    + destruct (dispatching w); discriminate.
  - destruct (Router.take ch (router (heap w))) as [[m0 r]|].
    + injection E as _ <-. reflexivity.
    + destruct (dispatching w); [|discriminate].
      destruct (dispatcher_iter addr ev (set_schedule evs w)) as [[[ ] w1]| |] eqn:E1;
        try discriminate.
      rewrite (IH _ _ _ E). apply (Hiter _ _ _ E1).
Qed.

(** X10: an [OpenDir] or [ReadDir] call that returns has put exactly one
    frame on the outbound queue, after those already there: the encoding
    of its own request with the reserved id.  When that encoding fails
    the call returns the codec's error at once, without sending and
    without taking anything the pumps deliver. *)
Theorem request_sends_one_frame (w w' : World) :
  (forall path r,
     OpenDir addr path w = Returns (r, w') ->
     match Encode (sshfxp.OpenDir (Router.Get (router (heap w))).1.1 path) with
     | Ok pkt => sent (outgoing (heap w')) = (sent (outgoing (heap w)) ++ [pkt])%list
     | Err e =>
         r = ("", Some e) /\ outgoing (heap w') = outgoing (heap w) /\
         schedule w' = schedule w
     end) /\
  (forall handle r,
     ReadDir addr handle w = Returns (r, w') ->
     match Encode (sshfxp.ReadDir (Router.Get (router (heap w))).1.1 handle) with
     | Ok pkt => sent (outgoing (heap w')) = (sent (outgoing (heap w)) ++ [pkt])%list
     | Err e =>
         r = ([], Some e) /\ outgoing (heap w') = outgoing (heap w) /\
         schedule w' = schedule w
     end).
Proof.
  split.
  - intros path r E. unfold OpenDir in E.
    apply bind_inv in E as (rs & w1 & E1 & E2).
    apply send_inv in E1 as [(e & He & -> & ->)|(pkt & He & C & -> & ->)];
      unfold reserve in *; simpl in *; rewrite He.
    + injection E2 as <- <-. repeat split.
    + apply bind_inv in E2 as (res & w2 & E2 & E3). injection E3 as _ <-.
      apply recv_from_sent in E2. exact E2.
  - intros handle r E. unfold ReadDir in E.
    apply bind_inv in E as (rs & w1 & E1 & E2).
    apply send_inv in E1 as [(e & He & -> & ->)|(pkt & He & C & -> & ->)];
      unfold reserve in *; simpl in *; rewrite He.
    + injection E2 as <- <-. repeat split.
    + apply bind_inv in E2 as (res & w2 & E2 & E3).
      apply bind_inv in E3 as (u & w3 & E3 & E4).
      injection E4 as _ <-. injection E3 as _ <-.
      apply recv_from_sent in E2. exact E2.
Qed.

(** *** Responses reaching their caller *)

Lemma routed_keeps_pending (id : N) (pkt : Packet) (r : Router.t) :
  not_for id (Incoming pkt) ->
  id ∈ Router.pending r -> Router.slots r !! id = None ->
  id ∈ Router.pending (routed pkt r) /\ Router.slots (routed pkt r) !! id = None.
Proof.
  unfold not_for, routed, Router.Resolve. intros Hn Hp Hs.
  destruct (Decode pkt) as [m|e]; [|auto].
  destruct (GetID m) as [id'|]; [|auto].
  destruct (decide (id' ∈ Router.pending r)); [|auto]. simpl.
  assert (id' <> id) by congruence.
  split; [set_solver|]. rewrite lookup_insert_ne; assumption.
Qed.

Lemma recv_from_skips (id : N) (p : Packet) (res : Message) (rest junk : list event) :
  Forall (not_for id) junk ->
  Decode p = Ok res -> GetID res = Some id ->
  forall w,
    dispatching w = true ->
    id ∈ Router.pending (router (heap w)) ->
    Router.slots (router (heap w)) !! id = None ->
    exists w',
      recv_from id (junk ++ Incoming p :: rest) w = Returns (res, w') /\
      schedule w' = rest /\ dispatching w' = true /\
      outgoing (heap w') = outgoing (heap w) /\
      id ∉ Router.pending (router (heap w')).
Proof.
  intros Hjunk Hd Hid.
  induction Hjunk as [|ev junk Hev _ IH]; intros w D Hp Hs; simpl;
    unfold Router.take at 1; rewrite Hs, D.
  - rewrite dispatcher_iter_incoming. simpl.
    assert (Router.take id (routed p (router (heap w))) =
              Some (res, Router.mk (Router.next_id (router (heap w)))
                           (Router.pending (router (heap w)) ∖ {[id]})
                           (delete id (<[id := res]> (Router.slots (router (heap w)))))))
      as Ht.
    { unfold routed, Router.Resolve, Router.take. rewrite Hd, Hid.
      destruct (decide (id ∈ Router.pending (router (heap w)))); [|contradiction].
      simpl. rewrite lookup_insert_eq. reflexivity. }
    destruct rest; simpl; rewrite Ht; eexists; (split; [reflexivity|]);
      simpl; rewrite ?D; repeat split; apply not_elem_of_difference; right;
      apply elem_of_singleton; reflexivity.
  - destruct ev as [q|]; [|contradiction].
    rewrite dispatcher_iter_incoming.
    destruct (routed_keeps_pending id q (router (heap w)) Hev Hp Hs) as [Hp1 Hs1].
    edestruct IH as (w' & E & H1 & H2 & H3 & H4); [| | |rewrite E].
    + exact D.
    + exact Hp1.
    + exact Hs1.
    + exists w'. repeat split; assumption.
Qed.

Lemma bind_blocks {A B : Type} (m : M A) (f : A -> M B) (w : World) :
  m w = Blocks -> (m ≫= f) w = Blocks.
Proof. intros E. unfold mbind, M_bind. now rewrite E. Qed.

Lemma recv_from_outcome_blocks (id : N) (e : option error) (rest : list event) (w : World) :
  dispatching w = true ->
  closed (outgoing (heap w)) = false ->
  Router.slots (router (heap w)) !! id = None ->
  recv_from id (Errch e :: rest) w = Blocks.
Proof.
  intros D C Hs. simpl. unfold Router.take at 1. rewrite Hs, D.
  rewrite dispatcher_iter_outcome. simpl. rewrite C.
  assert (forall w1 : World,
            Router.slots (router (heap w1)) !! id = None -> dispatching w1 = false ->
            recv_from id rest w1 = Blocks) as Hstop.
  { intros w1 Hs1 D1. destruct rest; simpl; unfold Router.take; rewrite Hs1, D1;
      reflexivity. }
  apply Hstop; [|reflexivity]. destruct e; exact Hs.
Qed.

(** X11: a pump outcome that is already on [errch] when the handshake
    completes is not looked at by [NewClient], which returns the client as
    ready with no session error.  The first request on that client never
    returns: pushed before the dispatcher has taken the outcome, it waits
    for a response with no dispatcher left to deliver one; pushed after,
    it panics on the closed queue. *)
Theorem pump_failure_during_handshake (rw rest : list event) (first pkt0 pkt : Packet)
    (e : option error) (path : string) :
  Encode (Init 3) = Ok pkt0 ->
  next_incoming rw = Some (first, Errch e :: rest) ->
  Decode first = Ok (sshfxp.Version 3) ->
  Encode (sshfxp.OpenDir (Router.Get Router.NewRouter).1.1 path) = Ok pkt ->
  exists w,
    NewClient rw = Returns (addr, w) /\
    schedule w = Errch e :: rest /\
    ioErr (heap w) = None /\
    (forall r w', OpenDir addr path w <> Returns (r, w')) /\
    exists w1,
      dispatcher_iter addr (Errch e) (set_schedule rest w) = Returns (tt, w1) /\
      OpenDir addr path w1 = Panics "send on closed channel".
Proof.
  intros He Hn Hd Hp. rewrite NewClient_cases, He, Hn, Hd. simpl.
  eexists. split; [reflexivity|]. split; [reflexivity|]. split; [reflexivity|].
  set (w := ready_world pkt0 (Errch e :: rest)). simpl in Hp. split.
  - set (w1 := pushed pkt
                 (set_heap (set_router (Router.Get (router (heap w))).2 (heap w)) w)).
    assert (send addr (sshfxp.OpenDir 0 path) w = Returns ((Some 0, None), w1)) as Hsend.
    { rewrite send_addr. unfold reserve. simpl. rewrite Hp. reflexivity. }
    assert (OpenDir addr path w = Blocks) as Hb.
    { unfold OpenDir. rewrite (bind_returns _ _ _ _ _ Hsend). simpl.
      apply bind_blocks. unfold recv.
      apply (recv_from_outcome_blocks 0 e rest w1); [reflexivity|reflexivity|].
      simpl. apply lookup_delete_eq. }
    intros r w'. rewrite Hb. discriminate.
  - rewrite dispatcher_iter_outcome. simpl. eexists. split; [reflexivity|].
    unfold OpenDir. apply bind_panics. rewrite send_addr. unfold reserve.
    destruct e; simpl; rewrite Hp; reflexivity.
Qed.

(** X12: with the router as the spec describes it, [OpenDir] returns the
    reading of the first inbound frame that carries the id of its own
    request, whatever arrives before it: frames that cannot be decoded,
    messages without an id and responses to other ids are handled by the
    dispatcher on the way and do not reach this caller. *)
Theorem response_reaches_its_caller (w : World) (path : string) (pkt p : Packet)
    (res : Message) (junk rest : list event) :
  dispatching w = true ->
  closed (outgoing (heap w)) = false ->
  Encode (sshfxp.OpenDir (Router.Get (router (heap w))).1.1 path) = Ok pkt ->
  schedule w = (junk ++ Incoming p :: rest)%list ->
  Forall (not_for (Router.Get (router (heap w))).1.1) junk ->
  Decode p = Ok res ->
  GetID res = Some (Router.Get (router (heap w))).1.1 ->
  exists w',
    OpenDir addr path w = Returns (OpenDir_switch res, w') /\
    schedule w' = rest /\
    dispatching w' = true /\
    outgoing (heap w') = mkChan false (sent (outgoing (heap w)) ++ [pkt]) /\
    (Router.Get (router (heap w))).1.1 ∉ Router.pending (router (heap w')).
Proof.
  intros D C He Hs Hjunk Hd Hid. simpl in *.
  set (id := Router.next_id (router (heap w))) in *.
  set (w1 := pushed pkt (set_heap (set_router (Router.Get (router (heap w))).2 (heap w)) w)).
  assert (send addr (sshfxp.OpenDir 0 path) w = Returns ((Some id, None), w1)) as Hsend.
  { rewrite send_addr. unfold reserve. simpl. fold id. rewrite He, C. reflexivity. }
  destruct (recv_from_skips id p res rest junk Hjunk Hd Hid w1)
    as (w' & E & H1 & H2 & H3 & H4).
  - exact D.
  - unfold w1. simpl. apply elem_of_union. left. apply elem_of_singleton. reflexivity.
  - unfold w1. simpl. apply lookup_delete_eq.
  - exists w'. unfold OpenDir. rewrite (bind_returns _ _ _ _ _ Hsend). simpl.
    assert (recv (Some id) w1 = Returns (res, w')) as Hrecv.
    { unfold recv. simpl. rewrite Hs. exact E. }
    rewrite (bind_returns _ _ _ _ _ Hrecv). repeat split; assumption.
Qed.

End Properties.

(** ** The client at work *)

Section Scenarios.

Import wire scenario.

(** C5, on a run: the server answers [init(3)] with [version(3)]. *)
Lemma handshake_success_witness :
  exists w0 w,
    DoHandshake addr (new_world [version3]) = Returns (None, w0) /\
    version (heap w0) = 3 /\
    NewClient [version3] = Returns (addr, w) /\
    outgoing (heap w) = mkChan false [init3] /\
    dispatching w = true /\
    version (heap w) = 3 /\
    Version addr w = Returns (3, w).
Proof.
  apply (@handshake_success wire.codec [version3] [] init3 (Frame (sshfxp.Version 3)));
    reflexivity.
Defined.

(** C10, on a run: after the handshake above [Version()] returns 3. *)
Lemma negotiated_version_is_3_witness : Version addr ready = Returns (3, ready).
Proof.
  apply (@negotiated_version_is_3 wire.codec addr ready).
  - apply (session_new addr [version3]). reflexivity.
  - discriminate.
Defined.


(** C2, on a run: the handshake fails on [version(4)], the stream
    delivers nothing else, and [NewClient] returns [nil]. *)
Lemma NewClient_ready_or_nil_witness :
  exists w,
    NewClient [version4] = Returns (nil, w) /\
    Errorf "SFTP handshake failed: %s" [AErr "unsupported version"] ∈ logs w /\
    ioErr (heap w) = Some "unsupported version" /\
    closed (outgoing (heap w)) = true.
Proof.
  exists (@failed_world wire.codec [init3] "unsupported version" []).
  destruct (proj2 (@NewClient_ready_or_nil wire.codec [version4]) nil
              (@failed_world wire.codec [init3] "unsupported version" []) eq_refl)
    as (r & w0 & E & H).
  vm_compute in E. injection E as <- _.
  destruct H as (_ & H1 & _ & _ & H2 & H3 & _).
  split; [reflexivity|]. split; [exact H1|]. split; [exact H2 | exact H3].
Defined.

(** C2, refuted as stated: no reading of what [NewClient] returns gives
    the caller the handshake error.  A handshake that fails on
    [version(4)] and one that fails on a stray [Handle], the stream
    delivering nothing else, end with two different errors, and
    [NewClient] returns the same [nil] for both. *)
Lemma NewClient_returns_no_error :
  (exists w, NewClient [version4] = Returns (nil, w)) /\
  (exists w, NewClient [stray_handle] = Returns (nil, w)) /\
  ~ exists surfaced : ptr -> option error,
      forall rw e w0,
        DoHandshake addr (new_world rw) = Returns (Some e, w0) ->
        exists cli w, NewClient rw = Returns (cli, w) /\ surfaced cli = Some e.
Proof.
  split; [eexists; reflexivity|]. split; [eexists; reflexivity|].
  intros [surfaced H].
  destruct (H [version4] "unsupported version" _ eq_refl) as (c1 & w1 & E1 & S1).
  destruct (H [stray_handle] "unexpected message received" _ eq_refl)
    as (c2 & w2 & E2 & S2).
  injection E1 as <- _. injection E2 as <- _.
  rewrite S1 in S2. discriminate S2.
Qed.

(** C4, on a run (scenario B of the spec): the server answers
    [OpenDir("/tmp")] with [status(2, "no such file")]. *)
Lemma OpenDir_interprets_response_witness :
  exists r w2,
    OpenDir addr "/tmp" (answering (sshfxp.Status 0 2 "no such file")) = Returns (r, w2) /\
    r = ("", Some "2 - no such file").
Proof.
  destruct (@OpenDir_interprets_response wire.codec
              (answering (sshfxp.Status 0 2 "no such file"))
              (requested (answering (sshfxp.Status 0 2 "no such file")))
              (answered (answering (sshfxp.Status 0 2 "no such file")))
              "/tmp" (Some 0) (sshfxp.Status 0 2 "no such file"))
    as (r & E & Hr & _).
  - vm_compute. reflexivity.
  - vm_compute. reflexivity.
  - eexists r, _. split; [exact E | exact Hr].
Defined.

(** Scenario A of the spec: the server answers [OpenDir("/tmp")] with
    [handle("abc")] and the call returns [("abc", nil)]. *)
Example OpenDir_scenario_A :
  exists w', OpenDir addr "/tmp" (answering (sshfxp.Handle 0 "abc")) = Returns (("abc", None), w').
Proof. eexists. vm_compute. reflexivity. Qed.

(** C3: the server answers [ReadDir("abc")] with the entries [a.txt] and
    [b.txt]; [ReadDir] logs the response and returns [nil, nil]. *)
Theorem ReadDir_discards_entries :
  exists w',
    ReadDir addr "abc" (answering (sshfxp.Name 0 ["a.txt"; "b.txt"]))
      = Returns (([], None), w') /\
    logs w' = [Infof "SFTP-handeshake complete. Using SFTP version %d" [AUint 3];
               Infof "Got message: Len=%d Type=%d: %#v"
                 [AUint 0; AUint 104; APacket (Frame (sshfxp.Name 0 ["a.txt"; "b.txt"]))];
               Infof "Got: %#v" [AMsg (sshfxp.Name 0 ["a.txt"; "b.txt"])]].
Proof. eexists. split; vm_compute; reflexivity. Qed.

(** A [Status] response, the server's error for the request, is dropped
    by [ReadDir] in the same way. *)
Example ReadDir_discards_status :
  exists w',
    ReadDir addr "abc" (answering (sshfxp.Status 0 2 "no such file"))
      = Returns (([], None), w').
Proof. eexists. vm_compute. reflexivity. Qed.

(** C7, on a run: a [Handle] for the id 7 arrives while nothing is
    outstanding. *)
Lemma routing_error_not_fatal_witness :
  exists w1 w',
    handleMessage addr (Frame (sshfxp.Handle 7 "abc")) ready
      = Returns (Some Router.RoutingError, w1) /\
    dispatcher_iter addr stray7 ready = Returns (tt, w') /\
    logs w' = (logs ready ++
               [Infof "Got message: Len=%d Type=%d: %#v"
                  [AUint 0; AUint 102; APacket (Frame (sshfxp.Handle 7 "abc"))];
                Errorf "failed to handle message: %s" [AErr Router.RoutingError]])%list /\
    heap w' = heap ready /\
    dispatching w' = true /\
    ioErr_stores w' = ioErr_stores ready /\
    forall evs,
      dispatcher addr (stray7 :: evs) ready = dispatcher addr evs (set_schedule evs w').
Proof.
  apply (@routing_error_not_fatal wire.codec ready (Frame (sshfxp.Handle 7 "abc"))
           (sshfxp.Handle 7 "abc")).
  - reflexivity.
  - reflexivity.
  - intros id _. apply not_elem_of_empty.
Defined.

(** C1, on a run: [EOF] arrives while the dispatcher runs. *)
Lemma closing_leaves_requests_pending_witness :
  exists w',
    dispatcher_iter addr (Errch (Some "EOF")) ready = Returns (tt, w') /\
    ioErr (heap w') = Some "EOF" /\
    outgoing (heap w') = mkChan true (sent (outgoing (heap ready))) /\
    dispatching w' = false /\
    router (heap w') = router (heap ready) /\
    forall ch, Router.slots (router (heap ready)) !! ch = None ->
      recv (Some ch) w' = Blocks.
Proof.
  apply (@closing_leaves_requests_pending wire.codec ready "EOF"); reflexivity.
Defined.

(** C1, refuted as stated: [OpenDir("/tmp")] sends its request, which is
    then outstanding with the id 0; a pump reports [EOF]; the dispatcher
    leaves, nothing is ever delivered to the slot of the request, and the
    call blocks for ever. *)
Lemma pending_request_blocks_after_pump_failure :
  NewClient [version3; Errch (Some "EOF")] = Returns (addr, failing) /\
  send addr (sshfxp.OpenDir 0 "/tmp") failing = Returns ((Some 0, None), requested failing) /\
  0 ∈ Router.pending (router (heap (requested failing))) /\
  schedule (requested failing) = [Errch (Some "EOF")] /\
  recv (Some 0) (requested failing) = Blocks /\
  OpenDir addr "/tmp" failing = Blocks.
Proof.
  split; [reflexivity|]. split; [vm_compute; reflexivity|].
  split; [vm_compute; set_solver|]. repeat split; vm_compute; reflexivity.
Qed.

(** C8, on a run: the session whose dispatcher has left. *)
Lemma closed_queue_no_result_witness :
  (forall x,
     send addr x closed_session <> Blocks /\
     forall r w', send addr x closed_session = Returns (r, w') ->
       (exists e x', r = (None, Some e) /\ sshfxp.Encode x' = Err e) /\
       outgoing (heap w') = outgoing (heap closed_session)) /\
  (forall path,
     OpenDir addr path closed_session <> Blocks /\
     forall r w', OpenDir addr path closed_session = Returns (r, w') ->
       (exists e x', r = ("", Some e) /\ sshfxp.Encode x' = Err e) /\
       outgoing (heap w') = outgoing (heap closed_session)) /\
  (forall handle,
     ReadDir addr handle closed_session <> Blocks /\
     forall r w', ReadDir addr handle closed_session = Returns (r, w') ->
       (exists e x', r = ([], Some e) /\ sshfxp.Encode x' = Err e) /\
       outgoing (heap w') = outgoing (heap closed_session)).
Proof.
  apply (@closed_queue_no_result wire.codec closed_session). reflexivity.
Defined.

(** C8, refuted as stated: a pump reports [EOF], the dispatcher closes
    the outbound queue and leaves; [send] then panics on the closed
    channel, and so do [OpenDir] and [ReadDir]. *)
Lemma send_on_closed_session_panics :
  dispatcher addr [Errch (Some "EOF")] failing = Returns (tt, closed_session) /\
  closed (outgoing (heap closed_session)) = true /\
  send addr (sshfxp.OpenDir 0 "/tmp") closed_session = Panics "send on closed channel" /\
  OpenDir addr "/tmp" closed_session = Panics "send on closed channel" /\
  ReadDir addr "abc" closed_session = Panics "send on closed channel".
Proof. repeat split; vm_compute; reflexivity. Qed.

(** C9, on a run: the session right after the handshake. *)
Lemma ioErr_written_at_most_once_witness :
  (length (ioErr_stores ready) <= 1)%nat /\
  ioErr (heap ready) = head (ioErr_stores ready) /\
  (dispatching ready = true -> ioErr_stores ready = []) /\
  (forall pre e post w',
     Forall is_incoming pre -> dispatching ready = true ->
     dispatcher addr (pre ++ Errch e :: post) ready = Returns (tt, w') ->
     dispatching w' = false /\ schedule w' = post /\
     ioErr (heap w') = e /\
     ioErr_stores w' = match e with Some x => [x] | None => [] end) /\
  (forall w',
     dispatching ready = false -> session_step addr ready w' ->
     ioErr (heap w') = ioErr (heap ready) /\ ioErr_stores w' = ioErr_stores ready).
Proof.
  apply (@ioErr_written_at_most_once wire.codec addr ready).
  apply (session_new addr [version3]). reflexivity.
Defined.

(** Two pump outcomes in a row: the first is recorded, the second is
    left unread on [cli.errch]. *)
Example second_outcome_unread :
  exists w',
    dispatcher addr [Errch (Some "EOF"); Errch (Some "broken pipe")] ready
      = Returns (tt, w') /\
    ioErr (heap w') = Some "EOF" /\
    ioErr_stores w' = ["EOF"] /\
    schedule w' = [Errch (Some "broken pipe")].
Proof. eexists. repeat split; vm_compute; reflexivity. Qed.

(** *** More runs *)

(** X1, on a run: the stream ends before the server has answered. *)
Lemma NewClient_never_panics_witness : NewClient [eof] = Blocks.
Proof.
  apply (proj2 (@NewClient_never_panics wire.codec [eof]) init3); [reflexivity|].
  intros pkt H. inversion H as [|? ? ? H']; subst. inversion H'.
Defined.

(** X2, on a run: after the handshake only the init frame is on the wire. *)
Lemma handshake_sends_only_init_witness :
  sent (outgoing (heap ready)) = [init3] /\
  router (heap ready) = Router.NewRouter /\
  (closed (outgoing (heap ready)) = true <-> addr = nil).
Proof.
  apply (@handshake_sends_only_init wire.codec [version3] addr ready). reflexivity.
Defined.

(** X3, on a run: the handshake that fails on [version(4)] stores no
    version. *)
Lemma DoHandshake_stores_version_on_success_witness :
  version (heap (world_of (DoHandshake addr (new_world [version4])))) = 0.
Proof.
  destruct (@DoHandshake_stores_version_on_success wire.codec (new_world [version4])
              (world_of (DoHandshake addr (new_world [version4])))
              (Some "unsupported version") eq_refl) as (_ & _ & _ & _ & H).
  exact H.
Defined.

(** X4, on a run: a frame of garbage arrives on the ready session. *)
Lemma decode_error_not_fatal_witness :
  exists w',
    dispatcher_iter addr garbage ready = Returns (tt, w') /\
    heap w' = heap ready /\ dispatching w' = true.
Proof.
  destruct (@decode_error_not_fatal wire.codec ready Garbage "malformed packet" eq_refl)
    as (w1 & w' & _ & E & Hh & Hd & _).
  exists w'. repeat split; assumption.
Defined.

(** X5, on a run: a pump reports [nil] on the ready session. *)
Lemma clean_outcome_ends_session_witness :
  exists w',
    dispatcher_iter addr (Errch None) ready = Returns (tt, w') /\
    dispatching w' = false /\
    ioErr (heap w') = None /\
    OpenDir addr "/tmp" w' = Panics "send on closed channel".
Proof.
  destruct (@clean_outcome_ends_session wire.codec ready eq_refl eq_refl)
    as (w' & E & D & _ & I & _ & _ & _ & H).
  exists w'. repeat split; try assumption.
  apply (H "/tmp" (Frame (sshfxp.OpenDir 0 "/tmp"))). reflexivity.
Defined.

Lemma closed_session_is_session : session addr closed_session.
Proof.
  apply (session_next addr failing).
  - apply (session_new addr [version3; Errch (Some "EOF")]). reflexivity.
  - apply (step_dispatcher addr failing closed_session (Errch (Some "EOF")) []);
      reflexivity.
Qed.

(** X6, on a run: the session whose dispatcher has left on [EOF]. *)
Lemma queue_closed_once_witness :
  closed (outgoing (heap closed_session)) = negb (dispatching closed_session) /\
  forall evs, exists w',
    dispatcher addr evs closed_session = Returns (tt, w') /\
    closed (outgoing (heap w')) = negb (dispatching w').
Proof.
  apply (@queue_closed_once wire.codec closed_session). apply closed_session_is_session.
Defined.

(** X7, on a run: the same session; its stream was never closed. *)
Lemma streams_never_closed_witness :
  reader (heap closed_session) = false /\ writer (heap closed_session) = false.
Proof.
  apply (@streams_never_closed wire.codec closed_session). apply closed_session_is_session.
Defined.

(** X8, on a run: the first request of a session is stamped with the id 0. *)
Lemma send_stamps_reserved_id_witness :
  router (heap (requested ready)) = (Router.Get Router.NewRouter).2 /\
  outgoing (heap (requested ready))
    = mkChan false [init3; Frame (sshfxp.OpenDir 0 "/tmp")].
Proof.
  destruct (@send_stamps_reserved_id wire.codec (sshfxp.OpenDir 0 "/tmp") ready
              (requested ready) (Some 0) eq_refl) as (_ & Hr & pkt & He & Ho).
  split; [exact Hr|]. injection He as <-. exact Ho.
Defined.

(** X9, on a run: the codec refuses the empty path. *)
Lemma failed_encoding_keeps_reservation_witness :
  outgoing (heap picky_failed) = outgoing (heap picky_ready) /\
  0 ∈ Router.pending (router (heap picky_failed)).
Proof.
  destruct (@failed_encoding_keeps_reservation picky (sshfxp.OpenDir 0 "") picky_ready
              picky_failed None "empty path" eq_refl) as (_ & Ho & _ & _ & Hp).
  split; [exact Ho | exact Hp].
Defined.

(** X11, on a run: [EOF] is reported before the server's version
    arrives. *)
Lemma pump_failure_during_handshake_witness :
  exists w,
    NewClient [eof; version3] = Returns (addr, w) /\
    schedule w = [eof] /\
    ioErr (heap w) = None /\
    (forall r w', OpenDir addr "/tmp" w <> Returns (r, w')) /\
    exists w1,
      dispatcher_iter addr eof (set_schedule [] w) = Returns (tt, w1) /\
      OpenDir addr "/tmp" w1 = Panics "send on closed channel".
Proof.
  apply (@pump_failure_during_handshake wire.codec [eof; version3] []
           (Frame (sshfxp.Version 3)) init3 (Frame (sshfxp.OpenDir 0 "/tmp"))
           (Some "EOF") "/tmp"); reflexivity.
Defined.

(** X12, on a run: garbage and a response for another id arrive before
    the response to the request. *)
Lemma response_reaches_its_caller_witness :
  exists w',
    OpenDir addr "/tmp" noisy = Returns (("abc", None), w') /\
    schedule w' = [] /\
    dispatching w' = true /\
    outgoing (heap w') = mkChan false [init3; Frame (sshfxp.OpenDir 0 "/tmp")] /\
    0 ∉ Router.pending (router (heap w')).
Proof.
  apply (@response_reaches_its_caller wire.codec noisy "/tmp"
           (Frame (sshfxp.OpenDir 0 "/tmp")) (Frame (sshfxp.Handle 0 "abc"))
           (sshfxp.Handle 0 "abc") [garbage; stray7] []);
    try reflexivity.
  repeat constructor. discriminate.
Defined.

End Scenarios.
